(** * Etag-validated cache of log tables: [inspect_scout/_transcript/s3_log_cache.py]

    A shallow embedding of the three functions of the module,
    [resolve_logs_with_etag], [get_cached_df] and [put_cached_df], and of the
    collaborators they call: the [json] module (a printer and a parser of
    the JSON text), the pandas frame, the key-value store and the storage
    backend. The definitions come first; the facts about the codec, the frame,
    the cache and the resolver follow, and concrete runs close the file.

    Scope of the model: a JSON number is an integer and a character is one
    of the 256 code points of a Rocq [ascii]; floating-point cells and other
    code points are outside it. Exceptions are subclasses of [Exception],
    which is all [except Exception] catches. *)

From Stdlib Require Import ZArith Ascii String List Lia DecimalZ DecimalPos DecimalFacts.
From stdpp Require Import base option list strings gmap.

Local Open Scope char_scope.
Local Open Scope list_scope.

(** * Python effects: exceptions and a mutable collaborator *)

(** The subclasses of [Exception] the collaborators raise. *)
Inductive exn : Type :=
  | JSONDecodeError
  | AttributeError
  | TypeError
  | ValueError
  | OSError (msg : string).

Inductive result (A : Type) : Type :=
  | Return (a : A)
  | Raise (e : exn).
Arguments Return {A} a.
Arguments Raise {A} e.

(** A statement run against a collaborator in state [St]: the state it
    leaves, and the value returned or the exception raised. *)
Definition M (St A : Type) : Type := St -> St * result A.

Definition ret {St A} (a : A) : M St A := fun s => (s, Return a).

Definition bind {St A B} (m : M St A) (k : A -> M St B) : M St B :=
  fun s =>
    match m s with
    | (s', Return a) => k a s'
    | (s', Raise e) => (s', Raise e)
    end.

(** A call that cannot touch the collaborator (a pure library function). *)
Definition lift {St A} (r : result A) : M St A := fun s => (s, r).

(** A call that reads the collaborator. *)
Definition read {St A} (f : St -> result A) : M St A := fun s => (s, f s).

(** A call that updates the collaborator, or raises and leaves it as it was. *)
Definition write {St} (f : St -> result St) : M St unit :=
  fun s =>
    match f s with
    | Return s' => (s', Return tt)
    | Raise e => (s, Raise e)
    end.

(** [try: body except Exception: handler] *)
Definition try_except {St A} (body : M St A) (handler : exn -> M St A) : M St A :=
  fun s =>
    match body s with
    | (s', Return a) => (s', Return a)
    | (s', Raise e) => handler e s'
    end.

Declare Scope py_scope.
Delimit Scope py_scope with py.
Notation "'let*' x ':=' c1 'in' c2" := (bind c1 (fun x => c2))
  (at level 10, x name, c1 at level 100, c2 at level 200) : py_scope.
Local Open Scope py_scope.

(** * Python values produced by the [json] module

    Numbers are the integers; floating-point numbers are outside the model.
    An object keeps its members in insertion order. *)

Unset Elimination Schemes.
Inductive json : Type :=
  | JNull
  | JBool (b : bool)
  | JNum (n : Z)
  | JStr (s : string)
  | JArr (items : list json)
  | JObj (members : list (string * json)).
Set Elimination Schemes.

Section json_ind.
Variable P : json -> Prop.
Hypothesis Hnull : P JNull.
Hypothesis Hbool : forall b, P (JBool b).
Hypothesis Hnum : forall n, P (JNum n).
Hypothesis Hstr : forall s, P (JStr s).
Hypothesis Harr : forall vs, Forall P vs -> P (JArr vs).
Hypothesis Hobj : forall ms, Forall (fun kv => P (snd kv)) ms -> P (JObj ms).

Fixpoint json_ind (v : json) : P v :=
  match v with
  | JNull => Hnull
  | JBool b => Hbool b
  | JNum n => Hnum n
  | JStr s => Hstr s
  | JArr vs =>
    Harr vs ((fix go (l : list json) : Forall P l :=
                match l with
                | [] => Lists.List.Forall_nil P
                | x :: l' => @Lists.List.Forall_cons _ P x l' (json_ind x) (go l')
                end) vs)
  | JObj ms =>
    Hobj ms ((fix go (l : list (string * json)) : Forall (fun kv => P (snd kv)) l :=
                match l with
                | [] => Lists.List.Forall_nil _
                | kv :: l' =>
                  @Lists.List.Forall_cons _ (fun kv => P (snd kv)) kv l'
                    (json_ind (snd kv)) (go l')
                end) ms)
  end.
End json_ind.

(** A Python dict has no repeated key. *)
Fixpoint unique_keys (ks : list string) : bool :=
  match ks with
  | [] => true
  | k :: ks' => negb (existsb (String.eqb k) ks') && unique_keys ks'
  end.

Fixpoint well_formed (v : json) : bool :=
  match v with
  | JArr vs => forallb well_formed vs
  | JObj ms => unique_keys (map fst ms) && forallb (fun kv => well_formed (snd kv)) ms
  | _ => true
  end.

Abbreviation chars := (list ascii).

(** * The text format of [json.dumps] and [json.loads] *)

Module JsonText.

Definition c_quote : ascii := "034".
Definition c_backslash : ascii := "092".

Definition is_ws (c : ascii) : bool :=
  Ascii.eqb c " " || Ascii.eqb c "009" || Ascii.eqb c "010" || Ascii.eqb c "013".

Fixpoint skip_ws (l : chars) : chars :=
  match l with
  | c :: r => if is_ws c then skip_ws r else l
  | [] => []
  end.

(** ** Strings *)

Definition hex_digit (n : N) : ascii :=
  if (n <? 10)%N then ascii_of_N (48 + n) else ascii_of_N (87 + n).

Definition hex_value (c : ascii) : option N :=
  let n := N_of_ascii c in
  if (48 <=? n)%N && (n <=? 57)%N then Some (n - 48)%N
  else if (97 <=? n)%N && (n <=? 102)%N then Some (n - 87)%N
  else if (65 <=? n)%N && (n <=? 70)%N then Some (n - 55)%N
  else None.

Definition hex4 (h1 h2 h3 h4 : ascii) : option N :=
  match hex_value h1, hex_value h2, hex_value h3, hex_value h4 with
  | Some a, Some b, Some c, Some d => Some (((a * 16 + b) * 16 + c) * 16 + d)%N
  | _, _, _, _ => None
  end.

(** [json.encoder.ESCAPE_ASCII]: the backslash, the double quote and
    everything outside the printable range [' '..'~'] are escaped. *)
Definition escape_char (esc_slash : bool) (c : ascii) : chars :=
  let n := N_of_ascii c in
  if Ascii.eqb c c_quote then [c_backslash; c_quote]
  else if Ascii.eqb c c_backslash then [c_backslash; c_backslash]
  else if Ascii.eqb c "010" then [c_backslash; "n"]
  else if Ascii.eqb c "013" then [c_backslash; "r"]
  else if Ascii.eqb c "009" then [c_backslash; "t"]
  else if Ascii.eqb c "008" then [c_backslash; "b"]
  else if Ascii.eqb c "012" then [c_backslash; "f"]
  else if Ascii.eqb c "/" && esc_slash then [c_backslash; "/"]
  else if (n <? 32)%N || (126 <? n)%N
    then [c_backslash; "u"; "0"; "0"; hex_digit (n / 16); hex_digit (n mod 16)]
  else [c].

Fixpoint escape (esc_slash : bool) (s : string) : chars :=
  match s with
  | EmptyString => []
  | String c s' => escape_char esc_slash c ++ escape esc_slash s'
  end.

Definition print_string (esc_slash : bool) (s : string) : chars :=
  c_quote :: escape esc_slash s ++ [c_quote].

Definition unescape (e : ascii) : option ascii :=
  if Ascii.eqb e c_quote then Some c_quote
  else if Ascii.eqb e c_backslash then Some c_backslash
  else if Ascii.eqb e "/" then Some "/"
  else if Ascii.eqb e "b" then Some "008"
  else if Ascii.eqb e "f" then Some "012"
  else if Ascii.eqb e "n" then Some "010"
  else if Ascii.eqb e "r" then Some "013"
  else if Ascii.eqb e "t" then Some "009"
  else None.

Definition cons_char (c : ascii) (r : option (string * chars)) : option (string * chars) :=
  match r with
  | Some (s, rest) => Some (String c s, rest)
  | None => None
  end.

(** The text after an opening quote, up to and including the closing
    one ([json.decoder.py_scanstring] in strict mode). *)
Fixpoint parse_string_body (l : chars) : option (string * chars) :=
  match l with
  | [] => None
  | c :: r =>
    if Ascii.eqb c c_quote then Some (EmptyString, r)
    else if Ascii.eqb c c_backslash then
      match r with
      | [] => None
      | e :: r1 =>
        if Ascii.eqb e "u" then
          match r1 with
          | h1 :: h2 :: h3 :: h4 :: r2 =>
            match hex4 h1 h2 h3 h4 with
            | Some n =>
              if (n <? 256)%N then cons_char (ascii_of_N n) (parse_string_body r2)
              else None
            | None => None
            end
          | _ => None
          end
        else
          match unescape e with
          | Some c' => cons_char c' (parse_string_body r1)
          | None => None
          end
      end
    else if (N_of_ascii c <? 32)%N then None
    else cons_char c (parse_string_body r)
  end.

(** ** Integers *)

Fixpoint uint_chars (u : Decimal.uint) : chars :=
  match u with
  | Decimal.Nil => []
  | Decimal.D0 u' => "0" :: uint_chars u'
  | Decimal.D1 u' => "1" :: uint_chars u'
  | Decimal.D2 u' => "2" :: uint_chars u'
  | Decimal.D3 u' => "3" :: uint_chars u'
  | Decimal.D4 u' => "4" :: uint_chars u'
  | Decimal.D5 u' => "5" :: uint_chars u'
  | Decimal.D6 u' => "6" :: uint_chars u'
  | Decimal.D7 u' => "7" :: uint_chars u'
  | Decimal.D8 u' => "8" :: uint_chars u'
  | Decimal.D9 u' => "9" :: uint_chars u'
  end.

Definition print_int (z : Z) : chars :=
  match Z.to_int z with
  | Decimal.Pos u => uint_chars u
  | Decimal.Neg u => "-" :: uint_chars u
  end.

Definition digit_of (c : ascii) : option (Decimal.uint -> Decimal.uint) :=
  if Ascii.eqb c "0" then Some Decimal.D0
  else if Ascii.eqb c "1" then Some Decimal.D1
  else if Ascii.eqb c "2" then Some Decimal.D2
  else if Ascii.eqb c "3" then Some Decimal.D3
  else if Ascii.eqb c "4" then Some Decimal.D4
  else if Ascii.eqb c "5" then Some Decimal.D5
  else if Ascii.eqb c "6" then Some Decimal.D6
  else if Ascii.eqb c "7" then Some Decimal.D7
  else if Ascii.eqb c "8" then Some Decimal.D8
  else if Ascii.eqb c "9" then Some Decimal.D9
  else None.

Fixpoint span_digits (l : chars) : Decimal.uint * chars :=
  match l with
  | [] => (Decimal.Nil, [])
  | c :: r =>
    match digit_of c with
    | Some d => let (u, rest) := span_digits r in (d u, rest)
    | None => (Decimal.Nil, l)
    end
  end.

(** The integer part of [json.scanner.NUMBER_RE]: an optional minus
    sign, then a single zero or a digit run that does not start with zero. *)
Definition int_literal (u : Decimal.uint) : bool :=
  match u with
  | Decimal.Nil => false
  | Decimal.D0 Decimal.Nil => true
  | Decimal.D0 _ => false
  | _ => true
  end.

Definition parse_int (l : chars) : option (Z * chars) :=
  match l with
  | [] => None
  | c :: r =>
    if Ascii.eqb c "-" then
      let (u, rest) := span_digits r in
      if int_literal u then Some (Z.of_int (Decimal.Neg u), rest) else None
    else
      let (u, rest) := span_digits l in
      if int_literal u then Some (Z.of_int (Decimal.Pos u), rest) else None
  end.

(** ** Values *)

Fixpoint strip_prefix (p l : chars) : option chars :=
  match p, l with
  | [], _ => Some l
  | a :: p', b :: l' => if Ascii.eqb a b then strip_prefix p' l' else None
  | _ :: _, [] => None
  end.

(** [d[k] = v] on an insertion-ordered dict. *)
Fixpoint dict_set (k : string) (v : json) (d : list (string * json)) : list (string * json) :=
  match d with
  | [] => [(k, v)]
  | (k', v') :: d' =>
    if String.eqb k' k then (k', v) :: d' else (k', v') :: dict_set k v d'
  end.

Definition dict_of_pairs (ps : list (string * json)) : list (string * json) :=
  fold_left (fun d kv => dict_set (fst kv) (snd kv) d) ps [].

Definition item_sep (sp : bool) : chars := if sp then [","; " "] else [","].
Definition key_sep (sp : bool) : chars := if sp then [":"; " "] else [":"].

Section Printer.
  (** [sp]: a space follows each separator ([json.dumps] defaults);
      [esc_slash]: the slash is escaped (pandas' writer). *)
Variables (sp esc_slash : bool).

Fixpoint print (v : json) : chars :=
    match v with
    | JNull => list_ascii_of_string "null"
    | JBool true => list_ascii_of_string "true"
    | JBool false => list_ascii_of_string "false"
    | JNum z => print_int z
    | JStr s => print_string esc_slash s
    | JArr [] => ["["; "]"]
    | JArr (v0 :: vs) =>
      "[" :: print v0 ++ flat_map (fun x => item_sep sp ++ print x) vs ++ ["]"]
    | JObj [] => ["{"; "}"]
    | JObj ((k0, v0) :: ms) =>
      "{" :: print_string esc_slash k0 ++ key_sep sp ++ print v0
          ++ flat_map (fun kv => item_sep sp ++ print_string esc_slash (fst kv)
                                           ++ key_sep sp ++ print (snd kv)) ms
          ++ ["}"]
    end.
End Printer.

(** Skip whitespace, then expect the character [c]. *)
Definition peek (c : ascii) (l : chars) : option chars :=
  match skip_ws l with
  | c' :: rest => if Ascii.eqb c' c then Some rest else None
  | [] => None
  end.

Definition literal (tail : string) (v : json) (r : chars) : option (json * chars) :=
  match strip_prefix (list_ascii_of_string tail) r with
  | Some rest => Some (v, rest)
  | None => None
  end.

(** [json.scanner.py_make_scanner._scan_once] with [JSONArray] and
    [JSONObject]; [fuel] bounds the nesting and the number of items. *)
Fixpoint parse_value (fuel : nat) (l : chars) : option (json * chars) :=
  match fuel with
  | O => None
  | S f =>
    match skip_ws l with
    | [] => None
    | c :: r =>
      if Ascii.eqb c c_quote then
        match parse_string_body r with
        | Some (s, rest) => Some (JStr s, rest)
        | None => None
        end
      else if Ascii.eqb c "[" then
        match peek "]" r with
        | Some rest => Some (JArr [], rest)
        | None =>
          match parse_elems f r with
          | Some (vs, rest) => Some (JArr vs, rest)
          | None => None
          end
        end
      else if Ascii.eqb c "{" then
        match peek "}" r with
        | Some rest => Some (JObj [], rest)
        | None =>
          match parse_members f r with
          | Some (ps, rest) => Some (JObj (dict_of_pairs ps), rest)
          | None => None
          end
        end
      else if Ascii.eqb c "n" then literal "ull" JNull r
      else if Ascii.eqb c "t" then literal "rue" (JBool true) r
      else if Ascii.eqb c "f" then literal "alse" (JBool false) r
      else
        match parse_int (c :: r) with
        | Some (z, rest) => Some (JNum z, rest)
        | None => None
        end
    end
  end
with parse_elems (fuel : nat) (l : chars) : option (list json * chars) :=
  match fuel with
  | O => None
  | S f =>
    match parse_value f l with
    | None => None
    | Some (v, r) =>
      match peek "," r with
      | Some r' =>
        match parse_elems f r' with
        | Some (vs, rest) => Some (v :: vs, rest)
        | None => None
        end
      | None =>
        match peek "]" r with
        | Some rest => Some ([v], rest)
        | None => None
        end
      end
    end
  end
with parse_members (fuel : nat) (l : chars) : option (list (string * json) * chars) :=
  match fuel with
  | O => None
  | S f =>
    match peek c_quote l with
    | None => None
    | Some r =>
      match parse_string_body r with
      | None => None
      | Some (k, r1) =>
        match peek ":" r1 with
        | None => None
        | Some r2 =>
          match parse_value f r2 with
          | None => None
          | Some (v, r3) =>
            match peek "," r3 with
            | Some r4 =>
              match parse_members f r4 with
              | Some (ps, rest) => Some ((k, v) :: ps, rest)
              | None => None
              end
            | None =>
              match peek "}" r3 with
              | Some rest => Some ([(k, v)], rest)
              | None => None
              end
            end
          end
        end
      end
    end
  end.

(** The text after a printed integer must not go on with a digit. *)
Definition digit_head (l : chars) : bool :=
  match l with
  | c :: _ => match digit_of c with Some _ => true | None => false end
  | [] => false
  end.

(** A bound on the fuel [parse_value] needs for the text of [v]. *)
Fixpoint weight (v : json) : nat :=
  match v with
  | JArr vs => S (list_sum (map (fun x => S (weight x)) vs))
  | JObj ms => S (list_sum (map (fun kv => S (weight (snd kv))) ms))
  | _ => 1
  end.

(** The characters a printed value can start with. *)
Definition value_start (c : ascii) : bool :=
  Ascii.eqb c c_quote || Ascii.eqb c "[" || Ascii.eqb c "{" || Ascii.eqb c "n"
  || Ascii.eqb c "t" || Ascii.eqb c "f" || Ascii.eqb c "-"
  || match digit_of c with Some _ => true | None => false end.

Definition num_start (c : ascii) : bool :=
  Ascii.eqb c "-" || match digit_of c with Some _ => true | None => false end.

(** The text of [v], followed by [rest], parses back to [v]. *)
Definition roundtrips (sp es : bool) (v : json) : Prop :=
  forall fuel rest,
    weight v <= fuel -> well_formed v = true -> digit_head rest = false ->
    parse_value fuel (print sp es v ++ rest) = Some (v, rest).

End JsonText.

(** ** [json.dumps] and [json.loads] *)

(** [json.dumps(v)] with the default separators and [ensure_ascii]. *)
Definition json_dumps (v : json) : string :=
  string_of_list_ascii (JsonText.print true false v).

(** [json.loads(s)]: one value, surrounded by optional whitespace, and
    nothing else; [JSONDecodeError] otherwise. *)
Definition json_loads (s : string) : result json :=
  let l := list_ascii_of_string s in
  match JsonText.parse_value (S (length l)) l with
  | Some (v, rest) =>
    match JsonText.skip_ws rest with
    | [] => Return v
    | _ :: _ => Raise JSONDecodeError
    end
  | None => Raise JSONDecodeError
  end.

(** ** Operations of Python values the cache uses *)

Fixpoint assoc (k : string) (d : list (string * json)) : option json :=
  match d with
  | [] => None
  | (k', v) :: d' => if String.eqb k' k then Some v else assoc k d'
  end.

(** [v.get(key, default)]: only a dict has the method. *)
Definition dict_get (v : json) (key : string) (default : json) : result json :=
  match v with
  | JObj d => Return (match assoc key d with Some x => x | None => default end)
  | _ => Raise AttributeError
  end.

(** The value of an argument of type [str | None]. *)
Definition etag_value (etag : option string) : json :=
  match etag with
  | Some e => JStr e
  | None => JNull
  end.

(** [cached_etag != current_etag], the right operand a [str | None]: a
    string equals only the same string, [None] equals only [None]. *)
Definition etag_ne (cached_etag : json) (current_etag : option string) : bool :=
  match cached_etag, current_etag with
  | JNull, None => false
  | JStr s, Some e => negb (String.eqb s e)
  | _, _ => true
  end.

(** Truth value of a Python value ([not records]). *)
Definition truthy (v : json) : bool :=
  match v with
  | JNull => false
  | JBool b => b
  | JNum n => negb (n =? 0)%Z
  | JStr s => negb (String.eqb s EmptyString)
  | JArr items => match items with [] => false | _ :: _ => true end
  | JObj members => match members with [] => false | _ :: _ => true end
  end.

(** * The table *)

(** Modelled from the spec: the cell of a frame of pandas, a third-party
    library. A cell holds a JSON-compatible value (section 3, CacheEntry) or a
    value that cannot be serialized (section 8, property 8). *)
Inductive cell : Type :=
  | Value (v : json)
  | PyObject (id : nat).

(** Modelled from the spec: the [DataFrame] of pandas: an ordered sequence
    of named columns and of rows (section 3, Table); the index is not part of
    the cached content. *)
Record DataFrame : Type := {
  columns : list string;
  data : list (list cell);
}.

Definition cell_ok (c : cell) : bool :=
  match c with
  | Value v => well_formed v
  | PyObject _ => true
  end.

(** The invariant of a frame: every row has one cell per column, and a
    cell's value is a Python value. *)
Definition valid_frame (df : DataFrame) : bool :=
  forallb (fun row => (length row =? length (columns df))%nat && forallb cell_ok row) (data df).

(** The value in a cell, null for a value that cannot be serialized. *)
Definition cell_value (c : cell) : json :=
  match c with
  | Value v => v
  | PyObject _ => JNull
  end.

Definition is_value (c : cell) : bool :=
  match c with
  | Value _ => true
  | PyObject _ => false
  end.

(** A frame [to_json_records] accepts. *)
Definition serializable (df : DataFrame) : bool :=
  unique_keys (columns df) && forallb (forallb is_value) (data df).

(** The serializer's steps: a cell, a row, the rows as objects. *)
Definition cell_json (c : cell) : result json :=
  match c with
  | Value v => Return v
  | PyObject _ => Raise TypeError
  end.

Fixpoint row_json (row : list cell) : result (list json) :=
  match row with
  | [] => Return []
  | c :: row' =>
    match cell_json c, row_json row' with
    | Return v, Return vs => Return (v :: vs)
    | Raise e, _ => Raise e
    | _, Raise e => Raise e
    end
  end.

Fixpoint rows_json (cols : list string) (rows : list (list cell)) : result (list json) :=
  match rows with
  | [] => Return []
  | row :: rows' =>
    match row_json row, rows_json cols rows' with
    | Return vs, Return os => Return (JObj (combine cols vs) :: os)
    | Raise e, _ => Raise e
    | _, Raise e => Raise e
    end
  end.

(** Modelled from the spec: [df.to_json(orient="records")] of pandas: the
    rows as a JSON array, one object per row, keys the column names (section
    4.3 step 1), in pandas' compact text. Serialization fails on a value that
    cannot be serialized (section 8, property 8) and on repeated column
    names, for which a row is no mapping from column name to value
    (section 3). *)
Definition to_json_records (df : DataFrame) : result string :=
  if unique_keys (columns df) then
    match rows_json (columns df) (data df) with
    | Return os => Return (string_of_list_ascii (JsonText.print false true (JArr os)))
    | Raise e => Raise e
    end
  else Raise ValueError.

Definition add_column (acc : list string) (k : string) : list string :=
  if existsb (String.eqb k) acc then acc else acc ++ [k].

(** The union of the rows' keys, in order of first appearance. *)
Definition union_columns (rows : list (list (string * json))) : list string :=
  fold_left (fun acc row => fold_left add_column (map fst row) acc) rows [].

(** The items of [records] as row objects, if that is what they all are. *)
Fixpoint row_objects (items : list json) : option (list (list (string * json))) :=
  match items with
  | [] => Some []
  | JObj d :: items' =>
    match row_objects items' with
    | Some ds => Some (d :: ds)
    | None => None
    end
  | _ :: _ => None
  end.

(** Modelled from the spec: [pd.DataFrame.from_records(records)] of pandas:
    a table rebuilt from the stored row records, its column layout inferred
    from the records (section 4.2 step 5), a key missing from a row filled
    with null (section 9); a value of any other shape is a failure (section
    4.2, failure semantics). *)
Definition from_records (records : json) : result DataFrame :=
  match records with
  | JArr items =>
    match row_objects items with
    | Some rows =>
      let cols := union_columns rows in
      Return {| columns := cols;
                data := map (fun d => map (fun c => Value (default JNull (assoc c d))) cols) rows |}
    | None => Raise TypeError
    end
  | _ => Raise TypeError
  end.

(** * The key-value store *)

(** The [kvstore: Any] argument: any object with [get] and [put]. A [put]
    stores the value or raises and leaves the store as it was (the store's
    own atomicity, section 1). *)
Class KVStore (St : Type) : Type := {
  kv_get : string -> St -> result (option string);
  kv_put : string -> string -> St -> result St;
}.

(** A store that returns what was last put under a key. *)
Class LawfulKVStore (St : Type) `{KVStore St} : Prop := {
  kv_get_put : forall k v s s', kv_put k v s = Return s' -> kv_get k s' = Return (Some v);
}.

(** An in-memory store that never fails. *)
#[global] Instance dict_store : KVStore (gmap string string) := {|
  kv_get k s := Return (s !! k);
  kv_put k v s := Return (<[k := v]> s);
|}.

(** A store that may have become read-only (a full or locked database):
    its entries can still be read, a [put] raises. *)
Record guarded_store : Type := {
  entries : gmap string string;
  writable : bool;
}.

#[global] Instance guarded_kvstore : KVStore guarded_store := {|
  kv_get k s := Return (entries s !! k);
  kv_put k v s :=
    if writable s then Return {| entries := <[k := v]> (entries s); writable := true |}
    else Raise (OSError "read-only store");
|}.

(** * The cache *)

Section Cache.
Context {St : Type} `{KVStore St}.

(** [get_cached_df(kvstore, log_path, current_etag)] *)
Definition get_cached_df (log_path : string) (current_etag : option string)
  : M St (option DataFrame) :=
  try_except
    (let* cached_value := read (kv_get log_path) in
     match cached_value with
     | None => ret None
     | Some blob =>
       let* cached_data := lift (json_loads blob) in
       let* cached_etag := lift (dict_get cached_data "etag" JNull) in
       if etag_ne cached_etag current_etag then ret None
       else
         let* records := lift (dict_get cached_data "records" (JArr [])) in
         if negb (truthy records) then ret None
         else
           let* df := lift (from_records records) in
           ret (Some df)
     end)
    (fun _ => ret None).

(** [put_cached_df(kvstore, log_path, etag, df)] *)
Definition put_cached_df (log_path : string) (etag : option string) (df : DataFrame)
  : M St unit :=
  try_except
    (let* text := lift (to_json_records df) in
     let* records := lift (json_loads text) in
     let cache_data := JObj [("etag"%string, etag_value etag); ("records"%string, records)] in
     write (kv_put log_path (json_dumps cache_data)))
    (fun _ => ret tt).

(** The body of [put_cached_df]'s [try] ran to its end from store [s]: the
    frame was serialized and the store took the entry, leaving [s']. *)
Definition stored (log_path : string) (etag : option string) (df : DataFrame)
  (s s' : St) : Prop :=
  exists text records,
    to_json_records df = Return text
    /\ json_loads text = Return records
    /\ kv_put log_path
         (json_dumps (JObj [("etag"%string, etag_value etag); ("records"%string, records)])) s
       = Return s'.

End Cache.

(** * The resolver *)

(** [inspect_ai._util.file.FileInfo] *)
Record FileInfo : Type := {
  name : string;
  type : string;
  size : Z;
  mtime : option Z;
  etag : option string;
}.

(** [inspect_ai.log._file.EvalLogInfo], a [FileInfo] with the task fields. *)
Record EvalLogInfo : Type := {
  info : FileInfo;
  task : string;
  task_id : string;
  suffix : option string;
}.

(** An [os.PathLike] object. *)
Record PathLike : Type := { fspath : string }.

(** One reference: [str | PathLike | EvalLogInfo]. *)
Inductive LogRef : Type :=
  | RefStr (s : string)
  | RefPath (p : PathLike)
  | RefInfo (i : EvalLogInfo).

(** The argument [logs]: one reference or a sequence of references. *)
Inductive Logs : Type :=
  | Single (r : LogRef)
  | Many (l : list LogRef).

(** The storage backend in state [W], with the library functions the
    resolver calls: [Path(p).as_posix()], [filesystem(p).info(p)],
    [filesystem(p).ls(name, recursive=True)] and
    [log_files_from_ls(ls, sort=...)]. The backend is read, never written. *)
Class Backend (W : Type) : Type := {
  as_posix : string -> string;
  fs_info : string -> W -> result FileInfo;
  fs_ls : string -> string -> W -> result (list FileInfo);
  log_files_from_ls : list FileInfo -> bool -> result (list EvalLogInfo);
}.

Section Resolver.
Context {W : Type} `{Backend W}.

(** [[logs] if isinstance(logs, str | PathLike | EvalLogInfo) else logs] *)
Definition references (logs : Logs) : list LogRef :=
  match logs with
  | Single r => [r]
  | Many l => l
  end.

Definition normalize (log : LogRef) : string :=
  match log with
  | RefPath p => as_posix (fspath p)
  | RefInfo i => name (info i)
  | RefStr s => s
  end.

(** The loop over [logs_str], [log_paths] the list built so far. *)
Fixpoint expand_directories (logs_str : list string) (log_paths : list FileInfo)
  : M W (list FileInfo) :=
  match logs_str with
  | [] => ret log_paths
  | log_str :: rest =>
    let* info := read (fs_info log_str) in
    if String.eqb (type info) "directory" then
      let* listing := read (fs_ls log_str (name info)) in
      expand_directories rest
        (log_paths ++ List.filter (fun fi => String.eqb (type fi) "file") listing)
    else expand_directories rest (log_paths ++ [info])
  end.

(** [{fi.name: fi.etag for fi in log_paths}] *)
Definition etag_map_of (log_paths : list FileInfo) : gmap string (option string) :=
  fold_left (fun m fi => <[name fi := etag fi]> m) log_paths ∅.

(** [resolve_logs_with_etag(logs)] *)
Definition resolve_logs_with_etag (logs : Logs) : M W (list (string * option string)) :=
  let logs_list := references logs in
  let logs_str := map normalize logs_list in
  let* log_paths := expand_directories logs_str [] in
  let* log_files := lift (log_files_from_ls log_paths false) in
  let etag_map := etag_map_of log_paths in
  ret (map (fun log_file =>
              (name (info log_file), mjoin (etag_map !! name (info log_file))))
           log_files).

(** The exception the backend raises when asked to stat the reference
    [log_str] and, when it is a directory, to list it; [None] when both
    calls return. *)
Definition reference_failure (log_str : string) (w : W) : option exn :=
  match fs_info log_str w with
  | Raise e => Some e
  | Return info =>
    if String.eqb (type info) "directory" then
      match fs_ls log_str (name info) w with
      | Raise e => Some e
      | Return _ => None
      end
    else None
  end.

End Resolver.

(** An in-memory backend: the descriptors by path and the recursive
    listings by directory name; a path it does not know is an error. A log
    file is a file whose name ends in [.eval] or [.json]. *)
Record memory_fs : Type := {
  files : gmap string FileInfo;
  listings : gmap string (list FileInfo);
}.

Fixpoint ends_with (suffix s : string) : bool :=
  String.eqb s suffix
  || match s with
     | EmptyString => false
     | String _ s' => ends_with suffix s'
     end.

Definition is_log_file (fi : FileInfo) : bool :=
  ends_with ".eval" (name fi) || ends_with ".json" (name fi).

#[global] Instance memory_backend : Backend memory_fs := {|
  as_posix p := p;
  fs_info p w :=
    match files w !! p with
    | Some fi => Return fi
    | None => Raise (OSError p)
    end;
  fs_ls _ dir w :=
    match listings w !! dir with
    | Some ls => Return ls
    | None => Raise (OSError dir)
    end;
  log_files_from_ls ls _ :=
    Return (map (fun fi => {| info := fi; task := ""; task_id := ""; suffix := None |})
                (List.filter is_log_file ls));
|}.

(** * Sample frames, stores and backends *)

Section Samples.
Local Open Scope string_scope.

(** Two rows of JSON-compatible values. *)
Definition scores : DataFrame :=
  {| columns := ["id"; "score"];
     data := [[Value (JStr "s/1"); Value (JNum 7)]; [Value (JStr "s2"); Value JNull]] |}.

(** The records of [scores]. *)
Definition scores_records : json :=
  JArr [JObj [("id", JStr "s/1"); ("score", JNum 7)];
        JObj [("id", JStr "s2"); ("score", JNull)]].

(** One row with a value that cannot be serialized. *)
Definition opaque_row : DataFrame :=
  {| columns := ["id"; "payload"]; data := [[Value (JStr "s1"); PyObject 0]] |}.

(** The columns of [scores] and no row. *)
Definition no_rows : DataFrame := {| columns := ["id"; "score"]; data := [] |}.

Definition one_id : DataFrame := {| columns := ["id"]; data := [[Value (JStr "s1")]] |}.

(** The entry [put_cached_df] writes for [one_id] under the given etag. *)
Definition one_id_entry (etag : option string) : string :=
  json_dumps (JObj [("etag", etag_value etag);
                    ("records", JArr [JObj [("id", JStr "s1")]])]).

Definition empty_store : gmap string string := ∅.

Definition read_only (m : gmap string string) : guarded_store :=
  {| entries := m; writable := false |}.

(** The store after [put_cached_df] wrote [df] under [log_path]. *)
Definition after_put (log_path : string) (etag : option string) (df : DataFrame)
  : gmap string string :=
  fst (put_cached_df log_path etag df empty_store).

(** A store that already holds an entry for [one_id] under [log_path]. *)
Definition holding (log_path : string) (etag : option string) : gmap string string :=
  {[ log_path := one_id_entry etag ]}.

Definition file_info (path : string) (tag : option string) : FileInfo :=
  {| name := path; type := "file"; size := 1; mtime := None; etag := tag |}.

Definition directory_info (path : string) : FileInfo :=
  {| name := path; type := "directory"; size := 0; mtime := None; etag := None |}.

(** A directory [logs] with two log files and a text file, and a log file
    beside it that has no etag. *)
Definition sample_fs : memory_fs :=
  {| files := {[ "logs" := directory_info "logs";
                 "local.json" := file_info "local.json" None ]};
     listings := {[ "logs" := [file_info "logs/a.eval" (Some "E1");
                               directory_info "logs/sub";
                               file_info "logs/notes.txt" (Some "E2");
                               file_info "logs/sub/b.eval" (Some "E3")] ]} |}.

End Samples.

(** * What one reference contributes, and stores that keep other keys *)

Section ReferencePaths.
Context {W : Type} `{Backend W}.

(** The descriptors one pass of the loop appends for [log_str]: the "file"
    entries of the recursive listing for a directory, the descriptor itself
    otherwise; nothing when a call raises. *)
Definition reference_paths (log_str : string) (w : W) : list FileInfo :=
  match fs_info log_str w with
  | Return info =>
    if String.eqb (type info) "directory" then
      match fs_ls log_str (name info) w with
      | Return listing => List.filter (fun fi => String.eqb (type fi) "file") listing
      | Raise _ => []
      end
    else [info]
  | Raise _ => []
  end.

(** The pairs [resolve_logs_with_etag] builds from the collected descriptors
    and the recognised log files (the last line of the function). *)
Definition etag_pairs (log_paths : list FileInfo) (log_files : list EvalLogInfo)
  : list (string * option string) :=
  map (fun log_file =>
         (name (info log_file), mjoin (etag_map_of log_paths !! name (info log_file))))
      log_files.

End ReferencePaths.

(** A store whose [put] under one key leaves what [get] returns under every
    other key. *)
Class FramedKVStore (St : Type) `{KVStore St} : Prop := {
  kv_get_put_other : forall k k' v s s',
    kv_put k v s = Return s' -> k' <> k -> kv_get k' s' = kv_get k' s;
}.

Section MoreSamples.
Local Open Scope string_scope.

(** An entry that lacks the "etag" key, and one that lacks the "records" key. *)
Definition no_etag_entry : list (string * json) :=
  [("records", JArr [JObj [("id", JStr "s1")]])].

Definition no_records_entry : list (string * json) := [("etag", JStr "E1")].

Definition sample_refs : list LogRef :=
  [RefStr "logs"; RefPath {| fspath := "local.json" |}].

(** The descriptors [sample_refs] collect on [sample_fs]. *)
Definition sample_paths : list FileInfo :=
  [file_info "logs/a.eval" (Some "E1");
   file_info "logs/notes.txt" (Some "E2");
   file_info "logs/sub/b.eval" (Some "E3");
   file_info "local.json" None].

End MoreSamples.

(** * Printing then parsing

    The parser reads back what the printer writes, in both text styles. *)

Module JsonTextFacts.
Import JsonText.

(** Case analysis on the eight bits of a character. *)
Ltac each_char c := destruct c as [[] [] [] [] [] [] [] []].

(** ** Strings *)

Lemma parse_string_body_escape es c l :
  parse_string_body (escape_char es c ++ l) = cons_char c (parse_string_body l).
Proof. destruct es; each_char c; reflexivity. Qed.

Lemma parse_string_body_print es s rest :
  parse_string_body (escape es s ++ c_quote :: rest) = Some (s, rest).
Proof.
  induction s as [|c s IH]; simpl; [reflexivity|].
  rewrite <- app_assoc, parse_string_body_escape, IH. reflexivity.
Qed.

(** ** Integers *)

Lemma span_digits_stop rest :
  digit_head rest = false -> span_digits rest = (Decimal.Nil, rest).
Proof.
  destruct rest as [|c r]; simpl; [reflexivity|].
  destruct (digit_of c); [discriminate | reflexivity].
Qed.

Lemma span_digits_print u rest :
  digit_head rest = false -> span_digits (uint_chars u ++ rest) = (u, rest).
Proof.
  intros Hr. induction u; simpl; rewrite ?IHu; auto using span_digits_stop.
Qed.

Lemma int_literal_unorm u : int_literal (Decimal.unorm u) = true.
Proof. induction u; simpl; auto. Qed.

Lemma int_literal_nzhead u :
  Decimal.nzhead u <> Decimal.Nil -> int_literal (Decimal.nzhead u) = true.
Proof. induction u; simpl; auto; congruence. Qed.

Lemma to_int_norm z : Decimal.norm (Z.to_int z) = Z.to_int z.
Proof. rewrite <- DecimalZ.to_of, DecimalZ.of_to. reflexivity. Qed.

Lemma uint_chars_head u :
  u <> Decimal.Nil ->
  exists c t, uint_chars u = c :: t /\ Ascii.eqb c "-" = false.
Proof. destruct u; try congruence; intros _; simpl; eauto. Qed.

Lemma parse_int_pos l c t :
  l = c :: t -> Ascii.eqb c "-" = false ->
  parse_int l =
    let (u, rest) := span_digits l in
    if int_literal u then Some (Z.of_int (Decimal.Pos u), rest) else None.
Proof. intros -> H. simpl. rewrite H. reflexivity. Qed.

Lemma parse_int_neg r :
  parse_int ("-" :: r) =
    let (u, rest) := span_digits r in
    if int_literal u then Some (Z.of_int (Decimal.Neg u), rest) else None.
Proof. reflexivity. Qed.

Lemma parse_int_print z rest :
  digit_head rest = false -> parse_int (print_int z ++ rest) = Some (z, rest).
Proof.
  intros Hr. unfold print_int.
  pose proof (to_int_norm z) as Hn. pose proof (DecimalZ.of_to z) as Hz.
  destruct (Z.to_int z) as [u|u]; simpl in Hn.
  - injection Hn as Hn.
    assert (Hl : int_literal u = true) by (rewrite <- Hn; apply int_literal_unorm).
    destruct (uint_chars_head u) as (c & t & Hc & Hm).
    { intros ->. discriminate. }
    rewrite (parse_int_pos _ c (t ++ rest)) by (rewrite ?Hc; auto).
    rewrite span_digits_print by assumption. rewrite Hl, Hz. reflexivity.
  - assert (Hl : int_literal u = true).
    { destruct (Decimal.nzhead u) eqn:Hh; try discriminate; injection Hn as Hn;
        rewrite <- Hn, <- Hh; apply int_literal_nzhead; rewrite Hh; discriminate. }
    change (("-" :: uint_chars u) ++ rest) with ("-" :: (uint_chars u ++ rest)).
    rewrite parse_int_neg, span_digits_print by assumption.
    rewrite Hl, Hz. reflexivity.
Qed.

(** ** First characters and unfolding equations *)

Lemma print_int_head z : exists c t, print_int z = c :: t /\ num_start c = true.
Proof.
  unfold print_int. pose proof (to_int_norm z) as Hn.
  destruct (Z.to_int z) as [u|u]; simpl in Hn.
  - injection Hn as Hn. pose proof (int_literal_unorm u) as Hl. rewrite Hn in Hl.
    destruct u; try discriminate; simpl; eauto.
  - simpl; eauto.
Qed.

Lemma print_head sp es v : exists c t, print sp es v = c :: t /\ value_start c = true.
Proof.
  destruct v as [|[]|z|s|[|v0 vs]|[|[k0 v0] ms]]; simpl; eauto.
  destruct (print_int_head z) as (c & t & -> & Hc). exists c, t. split; [reflexivity|].
  revert Hc. each_char c; cbv; congruence.
Qed.

Lemma peek_other c c' l :
  is_ws c' = false -> Ascii.eqb c' c = false -> peek c (c' :: l) = None.
Proof. intros Hw He. unfold peek. simpl. rewrite Hw, He. reflexivity. Qed.

Lemma value_start_not_ws c : value_start c = true -> is_ws c = false.
Proof. each_char c; cbv; congruence. Qed.

Lemma value_start_not_close c :
  value_start c = true -> Ascii.eqb c "]" = false /\ Ascii.eqb c "}" = false.
Proof. each_char c; cbv; intros; (discriminate || (split; reflexivity)). Qed.

Lemma peek_close_print sp es v l :
  peek "]" (print sp es v ++ l) = None /\ peek "}" (print sp es v ++ l) = None.
Proof.
  destruct (print_head sp es v) as (c & t & -> & Hc).
  destruct (value_start_not_close c Hc).
  split; apply peek_other; auto using value_start_not_ws.
Qed.

Lemma parse_value_num f c r :
  num_start c = true ->
  parse_value (S f) (c :: r) =
    match parse_int (c :: r) with
    | Some (z, rest) => Some (JNum z, rest)
    | None => None
    end.
Proof. each_char c; simpl; intros; (discriminate || reflexivity). Qed.

Lemma parse_value_space f l : parse_value f (" " :: l) = parse_value f l.
Proof. destruct f; reflexivity. Qed.

Lemma parse_elems_space f l : parse_elems f (" " :: l) = parse_elems f l.
Proof. destruct f; [reflexivity|]. simpl. rewrite parse_value_space. reflexivity. Qed.

Lemma parse_members_space f l : parse_members f (" " :: l) = parse_members f l.
Proof. destruct f; reflexivity. Qed.

Lemma parse_elems_S f l :
  parse_elems (S f) l =
    match parse_value f l with
    | None => None
    | Some (v, r) =>
      match peek "," r with
      | Some r' =>
        match parse_elems f r' with
        | Some (vs, rest) => Some (v :: vs, rest)
        | None => None
        end
      | None =>
        match peek "]" r with
        | Some rest => Some ([v], rest)
        | None => None
        end
      end
    end.
Proof. reflexivity. Qed.

Lemma parse_members_S f l :
  parse_members (S f) l =
    match peek c_quote l with
    | None => None
    | Some r =>
      match parse_string_body r with
      | None => None
      | Some (k, r1) =>
        match peek ":" r1 with
        | None => None
        | Some r2 =>
          match parse_value f r2 with
          | None => None
          | Some (v, r3) =>
            match peek "," r3 with
            | Some r4 =>
              match parse_members f r4 with
              | Some (ps, rest) => Some ((k, v) :: ps, rest)
              | None => None
              end
            | None =>
              match peek "}" r3 with
              | Some rest => Some ([(k, v)], rest)
              | None => None
              end
            end
          end
        end
      end
    end.
Proof. reflexivity. Qed.

Lemma parse_value_arr f r :
  parse_value (S f) ("[" :: r) =
    match peek "]" r with
    | Some rest => Some (JArr [], rest)
    | None =>
      match parse_elems f r with
      | Some (vs, rest) => Some (JArr vs, rest)
      | None => None
      end
    end.
Proof. reflexivity. Qed.

Lemma parse_value_obj f r :
  parse_value (S f) ("{" :: r) =
    match peek "}" r with
    | Some rest => Some (JObj [], rest)
    | None =>
      match parse_members f r with
      | Some (ps, rest) => Some (JObj (dict_of_pairs ps), rest)
      | None => None
      end
    end.
Proof. reflexivity. Qed.

Lemma parse_value_str f r :
  parse_value (S f) (c_quote :: r) =
    match parse_string_body r with
    | Some (s, rest) => Some (JStr s, rest)
    | None => None
    end.
Proof. reflexivity. Qed.

Lemma peek_item_sep sp l :
  peek "," (item_sep sp ++ l) = Some ((if sp then [" "] else []) ++ l).
Proof. destruct sp; reflexivity. Qed.

Lemma peek_key_sep sp l :
  peek ":" (key_sep sp ++ l) = Some ((if sp then [" "] else []) ++ l).
Proof. destruct sp; reflexivity. Qed.

Lemma parse_value_pad (sp : bool) f l :
  parse_value f ((if sp then [" "] else []) ++ l) = parse_value f l.
Proof. destruct sp; [apply parse_value_space | reflexivity]. Qed.

Lemma parse_elems_pad (sp : bool) f l :
  parse_elems f ((if sp then [" "] else []) ++ l) = parse_elems f l.
Proof. destruct sp; [apply parse_elems_space | reflexivity]. Qed.

Lemma parse_members_pad (sp : bool) f l :
  parse_members f ((if sp then [" "] else []) ++ l) = parse_members f l.
Proof. destruct sp; [apply parse_members_space | reflexivity]. Qed.

Lemma digit_head_item_sep sp l : digit_head (item_sep sp ++ l) = false.
Proof. destruct sp; reflexivity. Qed.

(** ** Values *)

Section Roundtrip.
Variables sp es : bool.

Lemma parse_elems_print vs :
    Forall (roundtrips sp es) vs -> forall v0, roundtrips sp es v0 -> forall fuel rest,
    S (weight v0) + list_sum (map (fun x => S (weight x)) vs) <= fuel ->
    well_formed v0 = true -> forallb well_formed vs = true ->
    parse_elems fuel
      (print sp es v0 ++ flat_map (fun x => item_sep sp ++ print sp es x) vs ++ "]" :: rest)
    = Some (v0 :: vs, rest).
Proof.
    induction 1 as [|v1 vs H1 _ IH]; intros v0 H0 fuel rest Hf Hw0 Hws;
      (destruct fuel as [|f]; [lia|]); rewrite parse_elems_S; simpl in Hf, Hws; cbn [flat_map].
    - rewrite H0; [reflexivity | lia | assumption | reflexivity].
    - apply andb_prop in Hws as [Hw1 Hws].
      rewrite <- !app_assoc.
      rewrite H0; [| lia | assumption | apply digit_head_item_sep].
      rewrite peek_item_sep, parse_elems_pad, IH; [reflexivity | assumption | lia | assumption..].
Qed.

Lemma parse_members_print ms :
    Forall (fun kv => roundtrips sp es (snd kv)) ms -> forall k0 v0, roundtrips sp es v0 ->
    forall fuel rest,
    S (weight v0) + list_sum (map (fun kv => S (weight (snd kv))) ms) <= fuel ->
    well_formed v0 = true -> forallb (fun kv => well_formed (snd kv)) ms = true ->
    parse_members fuel
      (print_string es k0 ++ key_sep sp ++ print sp es v0
         ++ flat_map (fun kv => item_sep sp ++ print_string es (fst kv)
                                         ++ key_sep sp ++ print sp es (snd kv)) ms
         ++ "}" :: rest)
    = Some ((k0, v0) :: ms, rest).
Proof.
    induction 1 as [|[k1 v1] ms H1 _ IH]; intros k0 v0 H0 fuel rest Hf Hw0 Hws;
      (destruct fuel as [|f]; [lia|]); rewrite parse_members_S; simpl in Hf, Hws;
      cbn [flat_map fst snd]; unfold print_string at 1;
      change (peek c_quote ((c_quote :: ?x) ++ ?y)) with (Some (x ++ y));
      cbv iota; rewrite <- !app_assoc; cbn [app];
      rewrite parse_string_body_print, peek_key_sep, parse_value_pad.
    - rewrite H0; [reflexivity | lia | assumption | reflexivity].
    - apply andb_prop in Hws as [Hw1 Hws].
      rewrite H0; [| lia | assumption | apply digit_head_item_sep].
      rewrite peek_item_sep, parse_members_pad, IH;
        [reflexivity | assumption | lia | assumption..].
Qed.

Lemma dict_set_fresh k v d :
    existsb (String.eqb k) (map fst d) = false -> dict_set k v d = d ++ [(k, v)].
Proof.
    induction d as [|[k' v'] d IH]; simpl; [reflexivity|].
    intros H. apply orb_false_elim in H as [Hk Hd].
    rewrite String.eqb_sym, Hk, IH by assumption. reflexivity.
Qed.

Lemma dict_of_pairs_unique ps :
    unique_keys (map fst ps) = true -> dict_of_pairs ps = ps.
Proof.
    unfold dict_of_pairs.
    enough (G : forall d, unique_keys (map fst (d ++ ps)) = true ->
                fold_left (fun d kv => dict_set (fst kv) (snd kv) d) ps d = d ++ ps)
      by (intros H; apply (G [] H)).
    induction ps as [|[k v] ps IH]; intros d Hu; simpl.
    - rewrite app_nil_r. reflexivity.
    - assert (Hk : existsb (String.eqb k) (map fst d) = false).
      { clear IH. induction d as [|[k' v'] d IHd]; simpl in *; [reflexivity|].
        apply andb_prop in Hu as [Hn Hu]. rewrite (IHd Hu), orb_false_r.
        rewrite map_app, existsb_app in Hn. simpl in Hn.
        rewrite String.eqb_sym. destruct (String.eqb k' k); [|reflexivity].
        rewrite orb_true_r in Hn. discriminate. }
      rewrite dict_set_fresh by assumption.
      rewrite IH; rewrite <- app_assoc; [reflexivity | exact Hu].
Qed.

(** The text of a Python value parses back to the value, with enough fuel. *)
Theorem parse_print v : roundtrips sp es v.
Proof.
    induction v as [| b | z | s | vs IH | ms IH] using json_ind;
      intros fuel rest Hf Hw Hr; (destruct fuel as [|f]; [simpl in Hf; lia|]).
    - reflexivity.
    - destruct b; reflexivity.
    - cbn [print]. destruct (print_int_head z) as (c & t & Hc & Hs).
      rewrite Hc at 1. cbn [app]. rewrite parse_value_num by assumption.
      change (c :: t ++ rest) with ((c :: t) ++ rest). rewrite <- Hc.
      rewrite parse_int_print by assumption. reflexivity.
    - cbn [print]. unfold print_string. cbn [app]. rewrite <- app_assoc.
      rewrite parse_value_str. cbn [app]. rewrite parse_string_body_print. reflexivity.
    - destruct vs as [|v0 vs]; [reflexivity|].
      apply Forall_cons_1 in IH as [H0 IH]. simpl in Hf, Hw.
      apply andb_prop in Hw as [Hw0 Hws].
      cbn [print app]. rewrite <- !app_assoc. cbn [app].
      rewrite parse_value_arr.
      destruct (peek_close_print sp es v0
                  (flat_map (fun x => item_sep sp ++ print sp es x) vs ++ "]" :: rest))
        as [-> _].
      rewrite parse_elems_print; [reflexivity | assumption.. | lia | assumption | assumption].
    - destruct ms as [|[k0 v0] ms]; [reflexivity|].
      apply Forall_cons_1 in IH as [H0 IH]. simpl in Hf, Hw.
      apply andb_prop in Hw as [Hu Hw]. apply andb_prop in Hw as [Hw0 Hws].
      cbn [print app]. rewrite <- !app_assoc.
      rewrite parse_value_obj. cbn [app].
      assert (Hp : peek "}" (print_string es k0 ++ key_sep sp ++ print sp es v0
          ++ flat_map (fun kv => item_sep sp ++ print_string es (fst kv)
                                          ++ key_sep sp ++ print sp es (snd kv)) ms
          ++ "}" :: rest) = None) by reflexivity.
      rewrite Hp, parse_members_print;
        [| assumption.. | lia | assumption | assumption].
      rewrite dict_of_pairs_unique by exact Hu. reflexivity.
Qed.

(** The length of the text is enough fuel. *)
Lemma weight_le_length v : weight v <= length (print sp es v).
Proof.
    induction v as [| b | z | s | vs IH | ms IH] using json_ind.
    - simpl. lia.
    - destruct b; simpl; lia.
    - destruct (print_int_head z) as (c & t & Hc & _). cbn [print weight]. rewrite Hc. simpl. lia.
    - simpl. lia.
    - destruct vs as [|v0 vs]; [simpl; lia|].
      apply Forall_cons_1 in IH as [H0 IH]. cbn [print weight map list_sum].
      cbn [length]. rewrite !length_app. cbn [length].
      enough (list_sum (map (fun x => S (weight x)) vs)
              <= length (flat_map (fun x => item_sep sp ++ print sp es x) vs)) by (simpl; lia).
      clear H0. induction IH as [|v1 vs H1 _ IHvs]; [simpl; lia|].
      cbn [flat_map map]. change (list_sum (?a :: ?l)) with (a + list_sum l).
      rewrite !length_app. assert (1 <= length (item_sep sp)) by (destruct sp; simpl; lia). lia.
    - destruct ms as [|[k0 v0] ms]; [simpl; lia|].
      apply Forall_cons_1 in IH as [H0 IH]. cbn [print weight map list_sum snd].
      cbn [length]. rewrite !length_app. cbn [length].
      enough (list_sum (map (fun kv => S (weight (snd kv))) ms)
              <= length (flat_map (fun kv => item_sep sp ++ print_string es (fst kv)
                                          ++ key_sep sp ++ print sp es (snd kv)) ms))
        by (simpl in *; lia).
      clear H0. induction IH as [|[k1 v1] ms H1 _ IHms]; [simpl; lia|].
      cbn [flat_map map fst snd] in *. change (list_sum (?a :: ?l)) with (a + list_sum l).
      rewrite !length_app. assert (1 <= length (item_sep sp)) by (destruct sp; simpl; lia). lia.
Qed.
End Roundtrip.

End JsonTextFacts.

(** * The codec of the [json] module *)

Section JsonFacts.
Import JsonText JsonTextFacts.

Lemma unique_keys_dict_set k v d :
  unique_keys (map fst d) = true -> unique_keys (map fst (dict_set k v d)) = true.
Proof.
  assert (Hin : forall k0 d, String.eqb k0 k = false ->
            existsb (String.eqb k0) (map fst (dict_set k v d))
            = existsb (String.eqb k0) (map fst d)).
  { intros k0 d0 Hk. induction d0 as [|[k' v'] d0 IH]; simpl.
    - rewrite Hk. reflexivity.
    - destruct (String.eqb k' k); simpl; [reflexivity | rewrite IH; reflexivity]. }
  induction d as [|[k' v'] d IH]; simpl; [reflexivity|].
  intros Hu. apply andb_prop in Hu as [Hn Hu].
  destruct (String.eqb k' k) eqn:Hk; simpl.
  - rewrite Hn, Hu. reflexivity.
  - rewrite Hin, Hn, IH by assumption. reflexivity.
Qed.

Lemma well_formed_dict_set k v d :
  well_formed v = true ->
  forallb (fun kv => well_formed (snd kv)) d = true ->
  forallb (fun kv => well_formed (snd kv)) (dict_set k v d) = true.
Proof.
  intros Hv. induction d as [|[k' v'] d IH]; simpl.
  - rewrite Hv. reflexivity.
  - intros Hd. apply andb_prop in Hd as [H1 H2].
    destruct (String.eqb k' k); simpl.
    + rewrite Hv, H2. reflexivity.
    + rewrite H1, IH by assumption. reflexivity.
Qed.

Lemma well_formed_dict_of_pairs ps :
  forallb (fun kv => well_formed (snd kv)) ps = true ->
  well_formed (JObj (dict_of_pairs ps)) = true.
Proof.
  unfold dict_of_pairs.
  enough (G : forall d, well_formed (JObj d) = true ->
              forallb (fun kv => well_formed (snd kv)) ps = true ->
              well_formed (JObj (fold_left (fun d kv => dict_set (fst kv) (snd kv) d) ps d)) = true)
    by (apply G; reflexivity).
  induction ps as [|[k v] ps IH]; intros d Hd Hps; simpl in *; [assumption|].
  apply andb_prop in Hps as [Hv Hps]. apply andb_prop in Hd as [Hu Hd].
  apply IH; [|assumption]. simpl.
  rewrite unique_keys_dict_set, well_formed_dict_set by assumption. reflexivity.
Qed.

(** Whatever [parse_value] accepts, the value it returns is a Python value. *)
Lemma parse_well_formed fuel :
  (forall l v rest, parse_value fuel l = Some (v, rest) -> well_formed v = true)
  /\ (forall l vs rest, parse_elems fuel l = Some (vs, rest) -> forallb well_formed vs = true)
  /\ (forall l ps rest, parse_members fuel l = Some (ps, rest) ->
        forallb (fun kv => well_formed (snd kv)) ps = true).
Proof.
  induction fuel as [|f (IHv & IHe & IHm)]; [repeat split; discriminate|].
  repeat split; intros l.
  - intros v rest. cbn [parse_value]. unfold literal.
    intros Hp. repeat case_match; simplify_eq; try reflexivity.
    + simpl. eauto.
    + apply well_formed_dict_of_pairs. eauto.
  - intros vs rest. rewrite parse_elems_S.
    intros Hp. repeat case_match; simplify_eq; simpl.
    + erewrite IHv, IHe by eauto. reflexivity.
    + erewrite IHv by eauto. reflexivity.
  - intros ps rest. rewrite parse_members_S.
    intros Hp. repeat case_match; simplify_eq; simpl.
    + erewrite IHv, IHm by eauto. reflexivity.
    + erewrite IHv by eauto. reflexivity.
Qed.

Lemma json_loads_well_formed s v : json_loads s = Return v -> well_formed v = true.
Proof.
  unfold json_loads. intros Hl. repeat case_match; simplify_eq.
  eapply parse_well_formed; eauto.
Qed.

(** Decoding the text of a Python value gives the value back, in either
    text style. *)
Lemma json_loads_print sp es v :
  well_formed v = true -> json_loads (string_of_list_ascii (print sp es v)) = Return v.
Proof.
  intros Hw. unfold json_loads. rewrite list_ascii_of_string_of_list_ascii.
  rewrite <- (app_nil_r (print sp es v)) at 2.
  rewrite parse_print; [reflexivity | | assumption | reflexivity].
  pose proof (weight_le_length sp es v). lia.
Qed.

Lemma json_loads_dumps v : well_formed v = true -> json_loads (json_dumps v) = Return v.
Proof. apply json_loads_print. Qed.

End JsonFacts.

(** * The frame and its records *)

Section FrameFacts.

Lemma row_json_Return row vs :
  row_json row = Return vs -> vs = map cell_value row /\ row = map Value vs.
Proof.
  revert vs. induction row as [|c row IH]; simpl; intros vs Hr.
  - injection Hr as <-. split; reflexivity.
  - destruct c as [v|]; simpl in Hr; [|discriminate].
    destruct (row_json row) as [vs'|]; [|discriminate].
    injection Hr as <-. destruct (IH vs' eq_refl) as [-> Hrow].
    simpl. split; [reflexivity | congruence].
Qed.

Lemma rows_json_Return cols rows os :
  rows_json cols rows = Return os ->
  os = map (fun row => JObj (combine cols (map cell_value row))) rows
  /\ Forall (fun row => row = map Value (map cell_value row)) rows.
Proof.
  revert os. induction rows as [|row rows IH]; simpl; intros os Hr.
  - injection Hr as <-. split; [reflexivity | constructor].
  - destruct (row_json row) as [vs|] eqn:Hrow; [|discriminate].
    destruct (rows_json cols rows) as [os'|]; [|discriminate].
    injection Hr as <-. destruct (IH os' eq_refl) as [-> Hall].
    destruct (row_json_Return _ _ Hrow) as [-> Hv].
    split; [reflexivity | constructor; assumption].
Qed.

Lemma row_json_is_value row :
  forallb is_value row = true <-> exists vs, row_json row = Return vs.
Proof.
  induction row as [|c row IH]; simpl.
  - split; [eauto | reflexivity].
  - destruct c as [v|]; simpl.
    + rewrite IH. split; intros [vs Hr].
      * rewrite Hr. eauto.
      * destruct (row_json row) as [vs'|]; [eauto | discriminate].
    + split; [discriminate | intros [vs Hr]; discriminate].
Qed.

Lemma rows_json_is_value cols rows :
  forallb (forallb is_value) rows = true <-> exists os, rows_json cols rows = Return os.
Proof.
  induction rows as [|row rows IH]; simpl.
  - split; [eauto | reflexivity].
  - rewrite andb_true_iff, IH, row_json_is_value. split.
    + intros [[vs ->] [os ->]]. eauto.
    + intros [os Hr]. destruct (row_json row) as [vs|]; [|discriminate].
      destruct (rows_json cols rows) as [os'|]; [eauto | discriminate].
Qed.

(** Serialization succeeds on the frames with distinct column names and no
    value that cannot be serialized, and on no other. *)
Lemma to_json_records_serializable df :
  serializable df = true <-> exists text, to_json_records df = Return text.
Proof.
  unfold serializable, to_json_records. rewrite andb_true_iff.
  rewrite (rows_json_is_value (columns df)).
  destruct (unique_keys (columns df)).
  - split.
    + intros [_ [os ->]]. eauto.
    + intros [text Ht]. split; [reflexivity|].
      destruct (rows_json (columns df) (data df)); [eauto | discriminate].
  - split; [intros [? _]; discriminate | intros [text ?]; discriminate].
Qed.

Lemma row_objects_map (f : list cell -> list (string * json)) rows :
  row_objects (map (fun row => JObj (f row)) rows) = Some (map f rows).
Proof. induction rows as [|row rows IH]; simpl; [|rewrite IH]; reflexivity. Qed.

Lemma forallb_map {A B} (f : B -> bool) (g : A -> B) l :
  forallb f (map g l) = forallb (fun x => f (g x)) l.
Proof. induction l as [|x l IH]; simpl; [|rewrite IH]; reflexivity. Qed.

Lemma existsb_eqb_app k (l1 l2 : list string) :
  existsb (String.eqb k) (l1 ++ l2) = existsb (String.eqb k) l1 || existsb (String.eqb k) l2.
Proof. apply existsb_app. Qed.

Lemma unique_keys_app_head acc k cols :
  unique_keys (acc ++ k :: cols) = true -> existsb (String.eqb k) acc = false.
Proof.
  induction acc as [|a acc IH]; simpl; [reflexivity|].
  intros Hu. apply andb_prop in Hu as [Hn Hu].
  rewrite (IH Hu), orb_false_r.
  rewrite existsb_app in Hn. simpl in Hn.
  rewrite String.eqb_sym. destruct (String.eqb a k); [|reflexivity].
  rewrite orb_true_r in Hn. discriminate.
Qed.

Lemma add_columns_fresh cols : forall acc,
  unique_keys (acc ++ cols) = true -> fold_left add_column cols acc = acc ++ cols.
Proof.
  induction cols as [|k cols IH]; intros acc Hu; simpl.
  - rewrite app_nil_r. reflexivity.
  - unfold add_column at 2. rewrite (unique_keys_app_head _ _ _ Hu).
    rewrite IH; rewrite <- app_assoc; [reflexivity | exact Hu].
Qed.

Lemma add_columns_known cols : forall acc,
  forallb (fun k => existsb (String.eqb k) acc) cols = true ->
  fold_left add_column cols acc = acc.
Proof.
  induction cols as [|k cols IH]; intros acc Hk; simpl in *; [reflexivity|].
  apply andb_prop in Hk as [Hk Hks].
  unfold add_column at 2. rewrite Hk. apply IH, Hks.
Qed.

Lemma forallb_known_self (cols : list string) :
  forallb (fun k => existsb (String.eqb k) cols) cols = true.
Proof.
  apply forallb_forall. intros k Hin. apply existsb_exists.
  exists k. split; [assumption | apply String.eqb_refl].
Qed.

Lemma union_columns_same cols (rows : list (list (string * json))) :
  unique_keys cols = true -> rows <> [] ->
  Forall (fun row => map fst row = cols) rows ->
  union_columns rows = cols.
Proof.
  intros Hu Hne Hall. unfold union_columns.
  destruct Hall as [|row rows Hrow Hall]; [congruence|]. simpl.
  rewrite Hrow, add_columns_fresh by exact Hu. simpl.
  induction Hall as [|row' rows Hrow' _ IH]; simpl; [reflexivity|].
  rewrite Hrow', add_columns_known by apply forallb_known_self. apply IH. discriminate.
Qed.

Lemma assoc_combine cols : forall vs,
  unique_keys cols = true -> length vs = length cols ->
  map (fun c => default JNull (assoc c (combine cols vs))) cols = vs.
Proof.
  induction cols as [|k cols IH]; intros [|v vs] Hu Hl; simpl in *; try discriminate;
    [reflexivity|].
  apply andb_prop in Hu as [Hn Hu]. rewrite String.eqb_refl. simpl. f_equal.
  transitivity (map (fun c => default JNull (assoc c (combine cols vs))) cols);
    [|apply IH; [assumption | congruence]].
  apply map_ext_in. intros c Hin.
  destruct (String.eqb k c) eqn:Hk; [|reflexivity].
  apply String.eqb_eq in Hk as ->. exfalso.
  apply negb_true_iff in Hn.
  assert (Hc : existsb (String.eqb c) cols = true)
    by (apply existsb_exists; exists c; split; [assumption | apply String.eqb_refl]).
  congruence.
Qed.

Lemma combine_keys (cols : list string) : forall vs : list json,
  length vs = length cols -> map fst (combine cols vs) = cols.
Proof.
  induction cols as [|k cols IH]; intros [|v vs] Hl; simpl in *; try discriminate;
    [reflexivity|].
  f_equal. apply IH. congruence.
Qed.

Lemma valid_frame_rows (cols : list string) (rows : list (list cell)) :
  forallb (fun row => (length row =? length cols)%nat && forallb cell_ok row) rows = true ->
  Forall (fun row => row = map Value (map cell_value row)) rows ->
  Forall (fun row => length (map cell_value row) = length cols
                     /\ forallb well_formed (map cell_value row) = true) rows.
Proof.
  intros Hv Hall. induction Hall as [|row rows Hrow _ IH]; [constructor|].
  simpl in Hv. apply andb_prop in Hv as [Hv Hvs]. apply andb_prop in Hv as [Hl Hc].
  constructor; [|exact (IH Hvs)]. split.
  - rewrite length_map. apply Nat.eqb_eq, Hl.
  - rewrite Hrow, forallb_map in Hc. simpl in Hc. exact Hc.
Qed.

Lemma well_formed_row (cols : list string) : forall vs : list json,
  unique_keys cols = true -> length vs = length cols ->
  forallb well_formed vs = true ->
  well_formed (JObj (combine cols vs)) = true.
Proof.
  intros vs Hu Hl Hw. simpl. rewrite combine_keys, Hu by assumption. simpl.
  clear Hu. revert vs Hl Hw.
  induction cols as [|k cols IH]; intros [|v vs] Hl Hw; simpl in *; try reflexivity.
  apply andb_prop in Hw as [-> Hw]. simpl. apply IH; [congruence | assumption].
Qed.

(** The records of a serialized frame are a Python value. *)
Lemma rows_json_well_formed df os :
  valid_frame df = true -> unique_keys (columns df) = true ->
  rows_json (columns df) (data df) = Return os ->
  well_formed (JArr os) = true.
Proof.
  destruct df as [cols rows]. unfold valid_frame. simpl.
  intros Hv Hu Hr. destruct (rows_json_Return _ _ _ Hr) as [-> Hall].
  pose proof (valid_frame_rows _ _ Hv Hall) as Hrows.
  rewrite forallb_map. clear Hr Hv Hall.
  induction Hrows as [|row rows [Hl Hw] _ IH]; [reflexivity|].
  cbn [forallb]. rewrite IH, andb_true_r. apply well_formed_row; assumption.
Qed.

(** A serialized frame with at least one row is rebuilt from its records. *)
Lemma from_records_rows_json df os :
  valid_frame df = true -> data df <> [] -> unique_keys (columns df) = true ->
  rows_json (columns df) (data df) = Return os ->
  from_records (JArr os) = Return df /\ os <> [].
Proof.
  destruct df as [cols rows]. unfold valid_frame. simpl.
  intros Hv Hne Hu Hr. destruct (rows_json_Return _ _ _ Hr) as [-> Hall].
  pose proof (valid_frame_rows _ _ Hv Hall) as Hrows.
  split; [|destruct rows; [congruence | discriminate]].
  unfold from_records. rewrite row_objects_map.
  rewrite union_columns_same with (cols := cols); [| assumption | |].
  - f_equal. f_equal. rewrite map_map.
    clear Hr Hne Hv. induction Hall as [|row rows Hrow _ IH]; [reflexivity|].
    apply Forall_cons_1 in Hrows as [[Hl _] Hrows]. simpl. rewrite (IH Hrows). f_equal.
    rewrite <- map_map with (g := Value), assoc_combine by assumption.
    symmetry. exact Hrow.
  - destruct rows; [congruence | discriminate].
  - clear Hr Hne Hv Hall.
    induction Hrows as [|row rows [Hl _] _ IH]; simpl; constructor;
      auto using combine_keys.
Qed.

End FrameFacts.

(** * The cache contract *)

Section CacheFacts.
Context {St : Type} `{KVStore St}.

Ltac run := unfold get_cached_df, put_cached_df, try_except, bind, read, write, lift, ret.

(** A read never raises and never touches the store. *)
Lemma get_cached_df_total log_path current_etag s :
  exists r, get_cached_df log_path current_etag s = (s, Return r).
Proof. run. repeat case_match; simplify_eq; eauto. Qed.

Lemma get_cached_df_no_entry log_path current_etag s :
  kv_get log_path s = Return None ->
  get_cached_df log_path current_etag s = (s, Return None).
Proof. intros Hg. run. rewrite Hg. reflexivity. Qed.

Lemma get_cached_df_store_error log_path current_etag s x :
  kv_get log_path s = Raise x ->
  get_cached_df log_path current_etag s = (s, Return None).
Proof. intros Hg. run. rewrite Hg. reflexivity. Qed.

(** What a read makes of the blob found under the key. *)
Lemma get_cached_df_entry log_path current_etag s blob :
  kv_get log_path s = Return (Some blob) ->
  get_cached_df log_path current_etag s =
    (s, Return
          match json_loads blob with
          | Return (JObj d) =>
            if etag_ne (default JNull (assoc "etag" d)) current_etag then None
            else
              let records := default (JArr []) (assoc "records" d) in
              if truthy records then
                match from_records records with
                | Return df => Some df
                | Raise _ => None
                end
              else None
          | _ => None
          end).
Proof.
  intros Hg. run. rewrite Hg.
  destruct (json_loads blob) as [[| | | | |d]|]; try reflexivity.
  simpl. unfold default. destruct (assoc "etag" d) as [ce|];
    (destruct (etag_ne _ current_etag); [reflexivity|]);
    (destruct (assoc "records" d) as [records|]; simpl; [|reflexivity]);
    (destruct (truthy records); simpl; [|reflexivity]);
    destruct (from_records records); reflexivity.
Qed.

(** A hit with an absent current etag needs an entry whose etag reads as
    [None]. *)
Lemma get_cached_df_absent_hit log_path s s' df :
  get_cached_df log_path None s = (s', Return (Some df)) ->
  exists blob d,
    kv_get log_path s = Return (Some blob)
    /\ json_loads blob = Return (JObj d)
    /\ dict_get (JObj d) "etag" JNull = Return JNull.
Proof.
  intros Hg. destruct (kv_get log_path s) as [[blob|]|x] eqn:Hk.
  - rewrite (get_cached_df_entry _ _ _ _ Hk) in Hg.
    destruct (json_loads blob) as [[| | | | |d]|] eqn:Hl; try discriminate.
    exists blob, d. split; [reflexivity|]. split; [exact Hl|].
    simpl. unfold default in Hg.
    destruct (assoc "etag" d) as [[| | | | |]|]; try discriminate; reflexivity.
  - rewrite (get_cached_df_no_entry _ _ _ Hk) in Hg. discriminate.
  - rewrite (get_cached_df_store_error _ _ _ _ Hk) in Hg. discriminate.
Qed.

(** A hit returns a frame with at least one row. *)
Lemma get_cached_df_hit_rows log_path current_etag s s' df :
  get_cached_df log_path current_etag s = (s', Return (Some df)) -> data df <> [].
Proof.
  intros Hg. destruct (kv_get log_path s) as [[blob|]|x] eqn:Hk.
  - rewrite (get_cached_df_entry _ _ _ _ Hk) in Hg.
    destruct (json_loads blob) as [[| | | | |d]|]; try discriminate.
    destruct (etag_ne _ current_etag); [discriminate|]. cbv zeta in Hg.
    destruct (default (JArr []) (assoc "records" d)) as [| | | |items|];
      try (destruct (truthy _); discriminate).
    destruct items as [|item items]; [discriminate|].
    unfold from_records in Hg. simpl truthy in Hg. cbv iota in Hg.
    destruct (row_objects (item :: items)) as [rows|] eqn:Hr; [|discriminate].
    injection Hg as _ <-. simpl.
    destruct rows as [|row rows]; [|discriminate].
    simpl in Hr. destruct item; try discriminate.
    destruct (row_objects items); discriminate.
  - rewrite (get_cached_df_no_entry _ _ _ Hk) in Hg. discriminate.
  - rewrite (get_cached_df_store_error _ _ _ _ Hk) in Hg. discriminate.
Qed.

Lemma etag_ne_value e1 e2 : etag_ne (etag_value e1) e2 = false <-> e1 = e2.
Proof.
  destruct e1 as [a|], e2 as [b|]; simpl; split; try congruence; try discriminate.
  - intros Hn. apply negb_false_iff, String.eqb_eq in Hn. congruence.
  - intros [= ->]. rewrite String.eqb_refl. reflexivity.
Qed.

(** A read of the entry a write left behind. *)
Lemma get_cached_df_written log_path etag current_etag records s :
  well_formed records = true ->
  kv_get log_path s
    = Return (Some (json_dumps (JObj [("etag"%string, etag_value etag);
                                      ("records"%string, records)]))) ->
  get_cached_df log_path current_etag s =
    (s, Return
          (if etag_ne (etag_value etag) current_etag then None
           else if truthy records then
             match from_records records with
             | Return df => Some df
             | Raise _ => None
             end
           else None)).
Proof.
  intros Hw Hg. rewrite (get_cached_df_entry _ _ _ _ Hg).
  rewrite json_loads_dumps.
  - reflexivity.
  - simpl. rewrite Hw. destruct etag; reflexivity.
Qed.

(** A write never raises; it leaves the store as it was or stores the entry. *)
Lemma put_cached_df_cases log_path etag df s :
  exists s', put_cached_df log_path etag df s = (s', Return tt)
             /\ (s' = s \/ stored log_path etag df s s').
Proof.
  run. unfold stored.
  destruct (to_json_records df) as [text|] eqn:Ht; [|eauto].
  destruct (json_loads text) as [records|] eqn:Hl; [|eauto].
  destruct (kv_put log_path _ s) as [s'|] eqn:Hp; [|eauto].
  exists s'. split; [reflexivity|]. right. eauto.
Qed.

Lemma put_cached_df_stored log_path etag df s s' :
  stored log_path etag df s s' -> put_cached_df log_path etag df s = (s', Return tt).
Proof.
  intros (text & records & Ht & Hl & Hp). run. rewrite Ht, Hl, Hp. reflexivity.
Qed.

Lemma put_cached_df_unserializable log_path etag df s x :
  to_json_records df = Raise x -> put_cached_df log_path etag df s = (s, Return tt).
Proof. intros Ht. run. rewrite Ht. reflexivity. Qed.

Lemma put_cached_df_store_error log_path etag df s text records x :
  to_json_records df = Return text -> json_loads text = Return records ->
  kv_put log_path
    (json_dumps (JObj [("etag"%string, etag_value etag); ("records"%string, records)])) s
  = Raise x ->
  put_cached_df log_path etag df s = (s, Return tt).
Proof. intros Ht Hl Hp. run. rewrite Ht, Hl, Hp. reflexivity. Qed.

End CacheFacts.

Section CacheClaims.
Context {St : Type} `{LawfulKVStore St}.

Lemma to_json_records_Return df text :
  to_json_records df = Return text ->
  exists os, unique_keys (columns df) = true
             /\ rows_json (columns df) (data df) = Return os
             /\ text = string_of_list_ascii (JsonText.print false true (JArr os)).
Proof.
  unfold to_json_records. intros Ht.
  destruct (unique_keys (columns df)); [|discriminate].
  destruct (rows_json (columns df) (data df)) as [os|]; [|discriminate].
  injection Ht as <-. eauto.
Qed.

(** The records of a stored entry are a Python value. *)
Lemma stored_entry log_path etag df s s' :
  stored log_path etag df s s' ->
  exists text records,
    to_json_records df = Return text /\ json_loads text = Return records
    /\ well_formed records = true
    /\ kv_get log_path s'
       = Return (Some (json_dumps (JObj [("etag"%string, etag_value etag);
                                         ("records"%string, records)]))).
Proof.
  intros (text & records & Ht & Hl & Hp). exists text, records.
  repeat split; eauto using json_loads_well_formed, kv_get_put.
Qed.

(** A frame that serializes is stored by every store that takes the entry. *)
Lemma stored_when_accepted log_path etag df s text :
  valid_frame df = true -> to_json_records df = Return text ->
  (forall blob, exists s', kv_put log_path blob s = Return s') ->
  exists s', stored log_path etag df s s'.
Proof.
  intros Hv Ht Hp. destruct (to_json_records_Return _ _ Ht) as (os & Hu & Hr & ->).
  destruct (Hp (json_dumps (JObj [("etag"%string, etag_value etag);
                                   ("records"%string, JArr os)]))) as [s' Hs'].
  exists s', (string_of_list_ascii (JsonText.print false true (JArr os))), (JArr os).
  repeat split; [assumption | | assumption].
  apply json_loads_print. eapply rows_json_well_formed; eassumption.
Qed.

Lemma etag_ne_refl etag : etag_ne (etag_value etag) etag = false.
Proof. apply etag_ne_value. reflexivity. Qed.

Lemma etag_ne_distinct e1 e2 : e2 <> e1 -> etag_ne (etag_value e1) e2 = true.
Proof.
  intros Hne. destruct (etag_ne (etag_value e1) e2) eqn:He; [reflexivity|].
  apply etag_ne_value in He. congruence.
Qed.

(** A hit on a stored entry needs the etag it was stored with. *)
Lemma get_cached_df_stale log_path e1 e2 df s s' :
  stored log_path e1 df s s' -> e2 <> e1 ->
  get_cached_df log_path e2 s' = (s', Return None).
Proof.
  intros Hs Hne. destruct (stored_entry _ _ _ _ _ Hs) as (text & records & _ & _ & Hw & Hg).
  rewrite (get_cached_df_written _ _ _ _ _ Hw Hg), etag_ne_distinct by assumption.
  reflexivity.
Qed.

(** A hit on a stored entry with the etag it was stored with. *)
Lemma get_cached_df_fresh log_path etag df s s' :
  valid_frame df = true -> data df <> [] -> stored log_path etag df s s' ->
  get_cached_df log_path etag s' = (s', Return (Some df)).
Proof.
  intros Hv Hne Hs.
  destruct (stored_entry _ _ _ _ _ Hs) as (text & records & Ht & Hl & Hw & Hg).
  destruct (to_json_records_Return _ _ Ht) as (os & Hu & Hr & ->).
  destruct (from_records_rows_json df os Hv Hne Hu Hr) as (Hf & Hos).
  rewrite json_loads_print in Hl by (eapply rows_json_well_formed; eassumption).
  injection Hl as <-.
  rewrite (get_cached_df_written _ _ _ _ _ Hw Hg), etag_ne_refl, Hf.
  destruct os; [congruence | reflexivity].
Qed.


(** The round trip in the store's terms: a frame that can be serialized,
    written to a store that takes the entry, is read back. *)
Corollary roundtrip_on_accepting_store log_path etag df s :
  valid_frame df = true -> data df <> [] -> serializable df = true ->
  (forall blob, exists s', kv_put log_path blob s = Return s') ->
  snd (get_cached_df log_path etag (fst (put_cached_df log_path etag df s)))
  = Return (Some df).
Proof.
  intros Hv Hne Hser Hp. apply to_json_records_serializable in Hser as [text Ht].
  destruct (stored_when_accepted log_path etag df s text Hv Ht Hp) as [s' Hs].
  rewrite (put_cached_df_stored _ _ _ _ _ Hs). simpl.
  rewrite (get_cached_df_fresh _ _ _ _ _ Hv Hne Hs). reflexivity.
Qed.

(** C1 (as amended). Etag round trip: when [put_cached_df] stored a frame
    with at least one row (the frame was serialized and the store took the
    entry), [get_cached_df] with the same path and etag returns a frame equal
    to it, columns and rows. *)
Theorem put_get_roundtrip log_path etag df s s' :
  valid_frame df = true -> data df <> [] -> stored log_path etag df s s' ->
  put_cached_df log_path etag df s = (s', Return tt)
  /\ get_cached_df log_path etag s' = (s', Return (Some df)).
Proof.
  intros Hv Hne Hs. split.
  - apply put_cached_df_stored, Hs.
  - eapply get_cached_df_fresh; eassumption.
Qed.

(** C2 (as amended). Invalidation on change: when [put_cached_df] stored a
    frame under etag [e1], [get_cached_df] with any other current etag [e2]
    is a miss; the stored etag is compared with exact equality. *)
Theorem stale_etag_is_miss log_path e1 e2 df s s' :
  stored log_path e1 df s s' -> e2 <> e1 ->
  put_cached_df log_path e1 df s = (s', Return tt)
  /\ get_cached_df log_path e2 s' = (s', Return None).
Proof.
  intros Hs Hne. split.
  - apply put_cached_df_stored, Hs.
  - eapply get_cached_df_stale; eassumption.
Qed.

(** C5 (as amended). Absent etags: when [put_cached_df] stored a frame with
    at least one row under an absent etag, [get_cached_df] with an absent
    current etag returns it; and absent matches only absent: an entry stored
    without etag is a miss for every present current etag, an entry stored
    with an etag is a miss for the absent current etag, and whatever the
    store holds, a hit with an absent current etag comes from an entry whose
    etag reads as [None]. *)
Theorem absent_etag_matches_absent log_path df s s' :
  valid_frame df = true -> data df <> [] ->
  (stored log_path None df s s' ->
     get_cached_df log_path None s' = (s', Return (Some df))
     /\ forall e, get_cached_df log_path (Some e) s' = (s', Return None))
  /\ (forall e, stored log_path (Some e) df s s' ->
        get_cached_df log_path None s' = (s', Return None))
  /\ (forall s0 s1 df0, get_cached_df log_path None s0 = (s1, Return (Some df0)) ->
        exists blob d,
          kv_get log_path s0 = Return (Some blob)
          /\ json_loads blob = Return (JObj d)
          /\ dict_get (JObj d) "etag" JNull = Return JNull).
Proof.
  intros Hv Hne. split; [|split].
  - intros Hs. split.
    + eapply get_cached_df_fresh; eassumption.
    + intros e. eapply get_cached_df_stale; [eassumption | discriminate].
  - intros e Hs. eapply get_cached_df_stale; [eassumption | discriminate].
  - intros s0 s1 df0. apply get_cached_df_absent_hit.
Qed.

(** A zero-row frame that was stored reads as a miss. *)
Lemma get_cached_df_no_rows log_path etag df s s' :
  data df = [] -> stored log_path etag df s s' ->
  get_cached_df log_path etag s' = (s', Return None).
Proof.
  intros Hd Hs.
  destruct (stored_entry _ _ _ _ _ Hs) as (text & records & Ht & Hl & Hw & Hg).
  destruct (to_json_records_Return _ _ Ht) as (os & _ & Hr & ->).
  rewrite Hd in Hr. injection Hr as <-.
  rewrite json_loads_print in Hl by reflexivity. injection Hl as <-.
  rewrite (get_cached_df_written _ _ _ _ _ Hw Hg).
  destruct (etag_ne _ _); reflexivity.
Qed.

End CacheClaims.

Section CacheTotality.
Context {St : Type} `{KVStore St}.

(** C3. [get_cached_df] never raises: every call returns, and a missing
    key, a failing store, a blob that is not JSON, a decoded value that is no
    object and records that cannot be rebuilt into a frame are all a miss. *)
Theorem get_cached_df_never_raises log_path current_etag s :
  (exists r, get_cached_df log_path current_etag s = (s, Return r))
  /\ (kv_get log_path s = Return None ->
        get_cached_df log_path current_etag s = (s, Return None))
  /\ (forall x, kv_get log_path s = Raise x ->
        get_cached_df log_path current_etag s = (s, Return None))
  /\ (forall blob, kv_get log_path s = Return (Some blob) ->
        (forall x, json_loads blob = Raise x ->
           get_cached_df log_path current_etag s = (s, Return None))
        /\ (forall v, json_loads blob = Return v -> (forall d, v <> JObj d) ->
              get_cached_df log_path current_etag s = (s, Return None))
        /\ (forall d x, json_loads blob = Return (JObj d) ->
              from_records (default (JArr []) (assoc "records" d)) = Raise x ->
              get_cached_df log_path current_etag s = (s, Return None))).
Proof.
  split; [apply get_cached_df_total|].
  split; [apply get_cached_df_no_entry|].
  split; [intros x; apply get_cached_df_store_error|].
  intros blob Hk. rewrite (get_cached_df_entry _ _ _ _ Hk). repeat split.
  - intros x ->. reflexivity.
  - intros v -> Hv. destruct v; try reflexivity. destruct (Hv members eq_refl).
  - intros d x -> Hf. cbv zeta. rewrite Hf. repeat case_match; reflexivity.
Qed.

(** C4. [put_cached_df] never raises: every call returns [None], having
    stored the entry or left the store as it was; a failure of the
    serialization, and a failure of the store's [put], leave the store as it
    was. *)
Theorem put_cached_df_never_raises log_path etag df s :
  (exists s', put_cached_df log_path etag df s = (s', Return tt)
              /\ (s' = s \/ stored log_path etag df s s'))
  /\ (forall x, to_json_records df = Raise x ->
        put_cached_df log_path etag df s = (s, Return tt))
  /\ (forall text records x,
        to_json_records df = Return text -> json_loads text = Return records ->
        kv_put log_path
          (json_dumps (JObj [("etag"%string, etag_value etag);
                             ("records"%string, records)])) s
        = Raise x ->
        put_cached_df log_path etag df s = (s, Return tt)).
Proof.
  split; [apply put_cached_df_cases|].
  split; [intros x; apply put_cached_df_unserializable|].
  intros text records x. apply put_cached_df_store_error.
Qed.

(** C6 (as amended). Empty-table policy: a frame [get_cached_df] returns has
    at least one row, whatever the store holds; and when [put_cached_df]
    stored a zero-row frame, in a store that returns what was put,
    [get_cached_df] with the matching etag is a miss. *)
Theorem empty_records_is_miss log_path etag s :
  (forall df s', get_cached_df log_path etag s = (s', Return (Some df)) -> data df <> [])
  /\ (LawfulKVStore St ->
      forall df s', data df = [] -> stored log_path etag df s s' ->
        get_cached_df log_path etag s' = (s', Return None)).
Proof.
  split.
  - intros df s'. apply get_cached_df_hit_rows.
  - intros L df s'. apply get_cached_df_no_rows.
Qed.

(** C9. [get_cached_df] leaves the store as it was: the state after the call
    is the state before it, so every key, the one of a stale entry included,
    still reads the same. *)
Theorem get_cached_df_preserves_store log_path current_etag s :
  fst (get_cached_df log_path current_etag s) = s
  /\ forall k, kv_get k (fst (get_cached_df log_path current_etag s)) = kv_get k s.
Proof.
  destruct (get_cached_df_total log_path current_etag s) as [r ->].
  split; reflexivity.
Qed.

End CacheTotality.

(** * The resolver *)

Section ResolverClaims.
Context {W : Type} `{Backend W}.

(** The loop only reads the backend. *)
Lemma expand_directories_reads logs_str : forall log_paths w,
  fst (expand_directories logs_str log_paths w) = w.
Proof.
  induction logs_str as [|log_str rest IH]; intros log_paths w; [reflexivity|].
  simpl. unfold bind, read.
  destruct (fs_info log_str w) as [i|]; [|reflexivity].
  destruct (String.eqb (type i) "directory"); [|apply IH].
  destruct (fs_ls log_str (name i) w); [apply IH | reflexivity].
Qed.

Lemma resolve_logs_with_etag_reads logs w :
  fst (resolve_logs_with_etag logs w) = w.
Proof.
  unfold resolve_logs_with_etag, bind, lift, ret.
  pose proof (expand_directories_reads (map normalize (references logs)) [] w) as He.
  destruct (expand_directories _ [] w) as [w' [log_paths|]]; simpl in He; subst w';
    [|reflexivity].
  destruct (log_files_from_ls log_paths false); reflexivity.
Qed.

(** A reference that can be statted and listed takes the loop one step on. *)
Lemma expand_directories_step log_str rest log_paths w :
  reference_failure log_str w = None ->
  exists more,
    expand_directories (log_str :: rest) log_paths w
    = expand_directories rest (log_paths ++ more) w.
Proof.
  unfold reference_failure. simpl. unfold bind, read.
  destruct (fs_info log_str w) as [i|]; [|discriminate].
  destruct (String.eqb (type i) "directory"); [|eauto].
  destruct (fs_ls log_str (name i) w); [eauto | discriminate].
Qed.

Lemma expand_directories_fail log_str rest log_paths w e :
  reference_failure log_str w = Some e ->
  expand_directories (log_str :: rest) log_paths w = (w, Raise e).
Proof.
  unfold reference_failure. simpl. unfold bind, read.
  destruct (fs_info log_str w) as [i|]; [|congruence].
  destruct (String.eqb (type i) "directory"); [|discriminate].
  destruct (fs_ls log_str (name i) w); [discriminate | congruence].
Qed.

(** The loop stops at the first reference that fails, with its exception. *)
Lemma expand_directories_first_failure pre : forall log_str post log_paths w e,
  Forall (fun p => reference_failure p w = None) pre ->
  reference_failure log_str w = Some e ->
  expand_directories (pre ++ log_str :: post) log_paths w = (w, Raise e).
Proof.
  induction pre as [|p pre IH]; intros log_str post log_paths w e Hpre Hf.
  - apply expand_directories_fail, Hf.
  - apply Forall_cons_1 in Hpre as [Hp Hpre].
    destruct (expand_directories_step p (pre ++ log_str :: post) log_paths w Hp) as [more Hs].
    change ((p :: pre) ++ log_str :: post) with (p :: pre ++ log_str :: post).
    rewrite Hs. apply IH; assumption.
Qed.

Lemma first_failing_reference (refs : list LogRef) w :
  Exists (fun r => reference_failure (normalize r) w <> None) refs ->
  exists pre r post e,
    refs = pre ++ r :: post
    /\ Forall (fun r' => reference_failure (normalize r') w = None) pre
    /\ reference_failure (normalize r) w = Some e.
Proof.
  induction refs as [|r refs IH]; intros Hex; [inversion Hex|].
  destruct (reference_failure (normalize r) w) as [e|] eqn:Hr.
  - exists [], r, refs, e. repeat split; [constructor | assumption].
  - destruct IH as (pre & r' & post & e & -> & Hpre & Hf).
    { inversion Hex; subst; [congruence | assumption]. }
    exists (r :: pre), r', post, e. repeat split; [constructor|]; assumption.
Qed.

(** C7. Resolve idempotence: a call leaves the backend as it was, and a
    second call on the same references, made after the first, returns the
    same result (the same list, or the same exception). *)
Theorem resolve_logs_with_etag_idempotent logs w :
  exists r,
    resolve_logs_with_etag logs w = (w, r)
    /\ resolve_logs_with_etag logs (fst (resolve_logs_with_etag logs w)) = (w, r).
Proof.
  pose proof (resolve_logs_with_etag_reads logs w) as Hw.
  destruct (resolve_logs_with_etag logs w) as [w1 r1] eqn:H1.
  simpl in Hw. subst w1. exists r1. simpl. rewrite H1. split; reflexivity.
Qed.

(** C8. Resolution errors: when the stat or the listing of some reference
    fails, the call raises the exception of the first such reference, as the
    backend raised it, and returns no list. *)
Theorem resolve_logs_with_etag_propagates logs w :
  Exists (fun r => reference_failure (normalize r) w <> None) (references logs) ->
  exists pre r post e,
    references logs = pre ++ r :: post
    /\ Forall (fun r' => reference_failure (normalize r') w = None) pre
    /\ reference_failure (normalize r) w = Some e
    /\ resolve_logs_with_etag logs w = (w, Raise e).
Proof.
  intros Hex.
  destruct (first_failing_reference _ w Hex) as (pre & r & post & e & Hrefs & Hpre & Hf).
  exists pre, r, post, e. repeat split; try assumption.
  unfold resolve_logs_with_etag, bind. rewrite Hrefs, map_app. simpl.
  rewrite (expand_directories_first_failure _ _ _ _ w e); [reflexivity | | assumption].
  clear -Hpre. induction Hpre; simpl; constructor; assumption.
Qed.

(** C10. One reference alone resolves as the one-element sequence of it. *)
Theorem resolve_logs_with_etag_single (r : LogRef) w :
  resolve_logs_with_etag (Single r) w = resolve_logs_with_etag (Many [r]) w.
Proof. reflexivity. Qed.

End ResolverClaims.

(** * Concrete runs *)

#[global] Instance dict_store_lawful : LawfulKVStore (gmap string string).
Proof. split. intros k v s s' [= <-]. simpl. rewrite lookup_insert_eq. reflexivity. Qed.

#[global] Instance guarded_kvstore_lawful : LawfulKVStore guarded_store.
Proof.
  split. intros k v s s'. simpl. destruct (writable s); [|discriminate].
  intros [= <-]. simpl. rewrite lookup_insert_eq. reflexivity.
Qed.

Section Runs.
Local Open Scope string_scope.

(** The write of [scores] to the empty store took effect: by evaluation. *)
Ltac stored_by_evaluation :=
  exists (string_of_list_ascii (JsonText.print false true scores_records)), scores_records;
  split; [vm_compute; reflexivity|]; split; vm_compute; reflexivity.

Lemma scores_text :
  to_json_records scores
  = Return (string_of_list_ascii (JsonText.print false true scores_records)).
Proof. reflexivity. Qed.

(** Property 2 of the spec, on the sample backend: a directory resolves to
    its log files, each with the etag of its descriptor. *)
Example resolve_directory :
  resolve_logs_with_etag (Many [RefStr "logs"; RefPath {| fspath := "local.json" |}]) sample_fs
  = (sample_fs,
     Return [("logs/a.eval", Some "E1"); ("logs/sub/b.eval", Some "E3"); ("local.json", None)]).
Proof. vm_compute. reflexivity. Qed.

Example resolve_missing :
  snd (resolve_logs_with_etag (Many [RefStr "logs"; RefStr "gone.eval"; RefStr "local.json"])
         sample_fs)
  = Raise (OSError "gone.eval").
Proof. vm_compute. reflexivity. Qed.

(** C1 as stated fails: a frame with one row that holds a value that cannot
    be serialized is silently not written, and the read that follows is a
    miss. *)
Lemma put_get_roundtrip_fails_unserializable :
  valid_frame opaque_row = true /\ data opaque_row <> []
  /\ put_cached_df "a.log" (Some "E1") opaque_row empty_store = (empty_store, Return tt)
  /\ snd (get_cached_df "a.log" (Some "E1")
            (fst (put_cached_df "a.log" (Some "E1") opaque_row empty_store)))
     = Return None.
Proof. repeat split; [discriminate | vm_compute; reflexivity..]. Qed.

Lemma put_get_roundtrip_witness :
  valid_frame scores = true /\ data scores <> []
  /\ stored "a.log" (Some "E1") scores empty_store (after_put "a.log" (Some "E1") scores)
  /\ put_cached_df "a.log" (Some "E1") scores empty_store
     = (after_put "a.log" (Some "E1") scores, Return tt)
  /\ get_cached_df "a.log" (Some "E1") (after_put "a.log" (Some "E1") scores)
     = (after_put "a.log" (Some "E1") scores, Return (Some scores)).
Proof.
  assert (Hs : stored "a.log" (Some "E1") scores empty_store (after_put "a.log" (Some "E1") scores))
    by stored_by_evaluation.
  split; [reflexivity|]. split; [discriminate|]. split; [exact Hs|].
  apply (put_get_roundtrip "a.log" (Some "E1") scores empty_store _ eq_refl);
    [discriminate | exact Hs].
Defined.

(** C2 as stated fails: the store holds an entry with etag E2, the write
    under E1 of a frame that cannot be serialized is silently dropped, and the
    read with E2 returns the old entry's frame. *)
Lemma stale_etag_hit_after_dropped_write :
  Some "E2" <> Some "E1"
  /\ put_cached_df "a.log" (Some "E1") opaque_row (holding "a.log" (Some "E2"))
     = (holding "a.log" (Some "E2"), Return tt)
  /\ snd (get_cached_df "a.log" (Some "E2")
            (fst (put_cached_df "a.log" (Some "E1") opaque_row (holding "a.log" (Some "E2")))))
     = Return (Some one_id).
Proof. repeat split; [discriminate | vm_compute; reflexivity..]. Qed.

Lemma stale_etag_is_miss_witness :
  stored "a.log" (Some "E1") scores empty_store (after_put "a.log" (Some "E1") scores)
  /\ Some "E2" <> Some "E1"
  /\ put_cached_df "a.log" (Some "E1") scores empty_store
     = (after_put "a.log" (Some "E1") scores, Return tt)
  /\ get_cached_df "a.log" (Some "E2") (after_put "a.log" (Some "E1") scores)
     = (after_put "a.log" (Some "E1") scores, Return None).
Proof.
  assert (Hs : stored "a.log" (Some "E1") scores empty_store (after_put "a.log" (Some "E1") scores))
    by stored_by_evaluation.
  split; [exact Hs|]. split; [discriminate|].
  apply (stale_etag_is_miss "a.log" (Some "E1") (Some "E2") scores empty_store _ Hs).
  discriminate.
Defined.

(** Properties 5 and 6 of the spec: a key never written and a blob that is
    not JSON are both a miss; so is a blob that decodes to an array. *)
Lemma get_cached_df_never_raises_witness :
  get_cached_df "never-written.log" (Some "E1") (holding "a.log" None)
  = (holding "a.log" None, Return None)
  /\ get_cached_df "a.log" (Some "E1") ({[ "a.log" := "{not json" ]} : gmap string string)
     = ({[ "a.log" := "{not json" ]}, Return None)
  /\ get_cached_df "a.log" (Some "E1") ({[ "a.log" := "[1, 2]" ]} : gmap string string)
     = ({[ "a.log" := "[1, 2]" ]}, Return None).
Proof.
  split; [|split].
  - apply (get_cached_df_never_raises "never-written.log" (Some "E1") (holding "a.log" None)).
    reflexivity.
  - destruct (get_cached_df_never_raises "a.log" (Some "E1")
                ({[ "a.log" := "{not json" ]} : gmap string string))
      as (_ & _ & _ & Hblob).
    destruct (Hblob "{not json" eq_refl) as [Hbad _].
    apply (Hbad JSONDecodeError). reflexivity.
  - destruct (get_cached_df_never_raises "a.log" (Some "E1")
                ({[ "a.log" := "[1, 2]" ]} : gmap string string))
      as (_ & _ & _ & Hblob).
    destruct (Hblob "[1, 2]" eq_refl) as (_ & Hshape & _).
    apply (Hshape (JArr [JNum 1; JNum 2])); [reflexivity | discriminate].
Defined.

(** Property 8 of the spec: the write of a frame that cannot be serialized
    returns, and the store is as it was; so does a write the store refuses. *)
Lemma put_cached_df_never_raises_witness :
  put_cached_df "a.log" (Some "E1") opaque_row empty_store = (empty_store, Return tt)
  /\ put_cached_df "a.log" (Some "E1") scores (read_only empty_store)
     = (read_only empty_store, Return tt).
Proof.
  split.
  - destruct (put_cached_df_never_raises "a.log" (Some "E1") opaque_row empty_store)
      as (_ & Hser & _).
    apply (Hser TypeError). reflexivity.
  - destruct (put_cached_df_never_raises "a.log" (Some "E1") scores (read_only empty_store))
      as (_ & _ & Hst).
    apply (Hst _ scores_records (OSError "read-only store") scores_text);
      [vm_compute; reflexivity | reflexivity].
Defined.

(** C5 as stated fails: a store that refuses the write keeps nothing, and
    the read with an absent etag that follows is a miss. *)
Lemma absent_etag_miss_after_refused_write :
  valid_frame scores = true /\ data scores <> []
  /\ put_cached_df "a.log" None scores (read_only empty_store)
     = (read_only empty_store, Return tt)
  /\ snd (get_cached_df "a.log" None
            (fst (put_cached_df "a.log" None scores (read_only empty_store))))
     = Return None.
Proof. repeat split; [discriminate | vm_compute; reflexivity..]. Qed.

Lemma absent_etag_matches_absent_witness :
  valid_frame scores = true /\ data scores <> []
  /\ stored "a.log" None scores empty_store (after_put "a.log" None scores)
  /\ get_cached_df "a.log" None (after_put "a.log" None scores)
     = (after_put "a.log" None scores, Return (Some scores))
  /\ get_cached_df "a.log" (Some "E1") (after_put "a.log" None scores)
     = (after_put "a.log" None scores, Return None).
Proof.
  assert (Hs : stored "a.log" None scores empty_store (after_put "a.log" None scores))
    by stored_by_evaluation.
  split; [reflexivity|]. split; [discriminate|]. split; [exact Hs|].
  destruct (absent_etag_matches_absent "a.log" scores empty_store
              (after_put "a.log" None scores) eq_refl) as [Hnone _]; [discriminate|].
  destruct (Hnone Hs) as [Hhit Hmiss]. split; [exact Hhit | apply Hmiss].
Defined.

(** C6 as stated fails: the store holds an entry under E1 and refuses the
    write of the zero-row frame; the read with E1 returns the old entry's
    frame. *)
Lemma empty_frame_hit_after_refused_write :
  data no_rows = []
  /\ put_cached_df "a.log" (Some "E1") no_rows (read_only (holding "a.log" (Some "E1")))
     = (read_only (holding "a.log" (Some "E1")), Return tt)
  /\ snd (get_cached_df "a.log" (Some "E1")
            (fst (put_cached_df "a.log" (Some "E1") no_rows
                    (read_only (holding "a.log" (Some "E1"))))))
     = Return (Some one_id).
Proof. repeat split; vm_compute; reflexivity. Qed.

Lemma empty_records_is_miss_witness :
  get_cached_df "a.log" (Some "E1") (holding "a.log" (Some "E1"))
  = (holding "a.log" (Some "E1"), Return (Some one_id))
  /\ data one_id <> []
  /\ data no_rows = []
  /\ stored "a.log" (Some "E1") no_rows (holding "a.log" (Some "E1"))
       (after_put "a.log" (Some "E1") no_rows)
  /\ get_cached_df "a.log" (Some "E1") (after_put "a.log" (Some "E1") no_rows)
     = (after_put "a.log" (Some "E1") no_rows, Return None).
Proof.
  assert (Hg : get_cached_df "a.log" (Some "E1") (holding "a.log" (Some "E1"))
               = (holding "a.log" (Some "E1"), Return (Some one_id)))
    by (vm_compute; reflexivity).
  assert (Hs : stored "a.log" (Some "E1") no_rows (holding "a.log" (Some "E1"))
                 (after_put "a.log" (Some "E1") no_rows)).
  { exists "[]", (JArr []). repeat split. }
  destruct (empty_records_is_miss "a.log" (Some "E1") (holding "a.log" (Some "E1")))
    as [Hrows Hmiss].
  split; [exact Hg|]. split; [exact (Hrows _ _ Hg)|]. split; [reflexivity|].
  split; [exact Hs|]. exact (Hmiss dict_store_lawful no_rows _ eq_refl Hs).
Defined.

Lemma resolve_logs_with_etag_propagates_witness :
  Exists (fun r => reference_failure (normalize r) sample_fs <> None)
    [RefStr "logs"; RefStr "gone.eval"; RefStr "local.json"]
  /\ exists pre r post e,
       [RefStr "logs"; RefStr "gone.eval"; RefStr "local.json"] = (pre ++ r :: post)%list
       /\ Forall (fun r' => reference_failure (normalize r') sample_fs = None) pre
       /\ reference_failure (normalize r) sample_fs = Some e
       /\ resolve_logs_with_etag
            (Many [RefStr "logs"; RefStr "gone.eval"; RefStr "local.json"]) sample_fs
          = (sample_fs, Raise e).
Proof.
  assert (Hex : Exists (fun r => reference_failure (normalize r) sample_fs <> None)
                  [RefStr "logs"; RefStr "gone.eval"; RefStr "local.json"]).
  { apply Exists_cons_tl, Exists_cons_hd. vm_compute. discriminate. }
  split; [exact Hex|].
  exact (resolve_logs_with_etag_propagates
           (Many [RefStr "logs"; RefStr "gone.eval"; RefStr "local.json"]) sample_fs Hex).
Defined.

End Runs.

(** * More of the resolver *)

Section ResolverMore.
Context {W : Type} `{Backend W}.

(** X3. The loop over a concatenation is the loop over the first part, then the
    loop over the second part started from what the first collected; a
    failure in the first part ends both. *)
Theorem expand_directories_app l1 l2 log_paths w :
  expand_directories (l1 ++ l2) log_paths w
  = bind (expand_directories l1 log_paths) (fun paths => expand_directories l2 paths) w.
Proof.
  revert log_paths. induction l1 as [|log_str l1 IH]; intros log_paths; [reflexivity|].
  simpl. unfold bind, read in *.
  destruct (fs_info log_str w) as [i|]; [|reflexivity].
  destruct (String.eqb (type i) "directory"); [|apply IH].
  destruct (fs_ls log_str (name i) w); [apply IH | reflexivity].
Qed.

Lemma expand_directories_one log_str rest log_paths w :
  reference_failure log_str w = None ->
  expand_directories (log_str :: rest) log_paths w
  = expand_directories rest (log_paths ++ reference_paths log_str w) w.
Proof.
  unfold reference_failure, reference_paths. simpl. unfold bind, read.
  destruct (fs_info log_str w) as [i|]; [|discriminate].
  destruct (String.eqb (type i) "directory"); [|reflexivity].
  destruct (fs_ls log_str (name i) w); [reflexivity | discriminate].
Qed.

(** When every reference can be statted and listed, the loop collects what
    each contributes, in the order of the references. *)
Lemma expand_directories_all logs_str : forall log_paths w,
  Forall (fun p => reference_failure p w = None) logs_str ->
  expand_directories logs_str log_paths w
  = (w, Return (log_paths ++ flat_map (fun p => reference_paths p w) logs_str)).
Proof.
  induction logs_str as [|p rest IH]; intros log_paths w Hall.
  - simpl. rewrite app_nil_r. reflexivity.
  - apply Forall_cons_1 in Hall as [Hp Hrest].
    rewrite expand_directories_one by assumption.
    rewrite IH by assumption. simpl. rewrite app_assoc. reflexivity.
Qed.

Lemma normalized_references (refs : list LogRef) w :
  Forall (fun r => reference_failure (normalize r) w = None) refs ->
  Forall (fun p => reference_failure p w = None) (map normalize refs).
Proof. intros Hall. induction Hall; simpl; constructor; assumption. Qed.

(** X1. Directory expansion: when no reference fails, the call hands to
    [log_files_from_ls] the descriptors of the references in order (a file
    reference its own descriptor, a directory the "file" entries of its
    recursive listing), pairs each recognised log file with its etag, and
    raises what [log_files_from_ls] raises. *)
Theorem resolve_logs_with_etag_expansion logs w :
  Forall (fun r => reference_failure (normalize r) w = None) (references logs) ->
  resolve_logs_with_etag logs w =
    (w, let log_paths :=
          flat_map (fun r => reference_paths (normalize r) w) (references logs) in
        match log_files_from_ls log_paths false with
        | Return log_files => Return (etag_pairs log_paths log_files)
        | Raise e => Raise e
        end).
Proof.
  intros Hall. unfold resolve_logs_with_etag, bind, lift, ret.
  rewrite expand_directories_all by (apply normalized_references, Hall).
  simpl. rewrite flat_map_concat_map, map_map, <- flat_map_concat_map.
  destruct (log_files_from_ls _ false); reflexivity.
Qed.

Lemma returned_without_failure logs w w' pairs :
  resolve_logs_with_etag logs w = (w', Return pairs) ->
  Forall (fun r => reference_failure (normalize r) w = None) (references logs).
Proof.
  intros Hr. apply Lists.List.Forall_forall. intros r Hin.
  destruct (reference_failure (normalize r) w) as [e|] eqn:Hf; [exfalso | reflexivity].
  assert (Hex : Exists (fun r => reference_failure (normalize r) w <> None) (references logs)).
  { apply Lists.List.Exists_exists. exists r. split; [assumption | congruence]. }
  destruct (first_failing_reference _ w Hex) as (pre & r0 & post & e0 & Hrefs & Hpre & Hf0).
  unfold resolve_logs_with_etag, bind in Hr. rewrite Hrefs, map_app in Hr. simpl in Hr.
  rewrite (expand_directories_first_failure _ _ _ _ w e0) in Hr; [discriminate | | assumption].
  clear -Hpre. induction Hpre; simpl; constructor; assumption.
Qed.

(** X2. A call that returns a list had no failing reference: every reference
    could be statted and, when a directory, listed; and the backend is as it
    was. *)
Theorem resolve_logs_with_etag_returns logs w w' pairs :
  resolve_logs_with_etag logs w = (w', Return pairs) ->
  w' = w
  /\ Forall (fun r => reference_failure (normalize r) w = None) (references logs).
Proof.
  intros Hr. split.
  - pose proof (resolve_logs_with_etag_reads logs w) as Hw. rewrite Hr in Hw. exact Hw.
  - eapply returned_without_failure, Hr.
Qed.

Lemma reference_paths_no_directory log_str w :
  Forall (fun fi => String.eqb (type fi) "directory" = false) (reference_paths log_str w).
Proof.
  unfold reference_paths.
  destruct (fs_info log_str w) as [i|]; [|constructor].
  destruct (String.eqb (type i) "directory") eqn:Hd.
  - destruct (fs_ls log_str (name i) w) as [listing|]; [|constructor].
    apply Lists.List.Forall_forall. intros fi Hin. apply filter_In in Hin as [_ Hfile].
    apply String.eqb_eq in Hfile. rewrite Hfile. reflexivity.
  - constructor; [assumption | constructor].
Qed.

(** X4. No directory descriptor is collected: what the loop returns holds only
    "file" entries of listings and the descriptors of references that are
    not directories. *)
Theorem expand_directories_no_directory logs_str w w' log_paths :
  expand_directories logs_str [] w = (w', Return log_paths) ->
  Forall (fun fi => String.eqb (type fi) "directory" = false) log_paths.
Proof.
  enough (G : forall l acc, Forall (fun fi => String.eqb (type fi) "directory" = false) acc ->
                expand_directories l acc w = (w', Return log_paths) ->
                Forall (fun fi => String.eqb (type fi) "directory" = false) log_paths)
    by (apply G; constructor).
  induction l as [|p rest IH]; intros acc Hacc Hr.
  - injection Hr as _ <-. assumption.
  - destruct (reference_failure p w) as [e|] eqn:Hf.
    + rewrite (expand_directories_fail _ _ _ _ _ Hf) in Hr. discriminate.
    + rewrite expand_directories_one in Hr by assumption.
      apply (IH _ (proj2 (Forall_app _ _ _) (conj Hacc (reference_paths_no_directory p w)))).
      exact Hr.
Qed.

Lemma etag_map_of_snoc (log_paths : list FileInfo) fi :
  etag_map_of (log_paths ++ [fi]) = <[name fi := etag fi]> (etag_map_of log_paths).
Proof. unfold etag_map_of. rewrite fold_left_app. reflexivity. Qed.

Lemma etag_map_of_absent (log_paths : list FileInfo) n :
  Forall (fun fi => name fi <> n) log_paths -> etag_map_of log_paths !! n = None.
Proof.
  induction log_paths as [|fi log_paths IH] using rev_ind; intros Hall; [reflexivity|].
  apply Forall_app in Hall as [Hpaths Hfi]. apply Forall_cons_1 in Hfi as [Hfi _].
  rewrite etag_map_of_snoc, lookup_insert_ne by assumption. apply IH, Hpaths.
Qed.

(** X5. The etag map: of the descriptors with one name the last one gives the
    etag, and a name no descriptor has is not in the map, so that its pair
    gets no etag. *)
Theorem etag_map_of_last (log_paths : list FileInfo) :
  (forall pre fi post,
     log_paths = pre ++ fi :: post ->
     Forall (fun fi' => name fi' <> name fi) post ->
     etag_map_of log_paths !! name fi = Some (etag fi))
  /\ (forall n, Forall (fun fi' => name fi' <> n) log_paths ->
        mjoin (etag_map_of log_paths !! n) = None).
Proof.
  split.
  - intros pre fi post -> Hpost.
    induction post as [|fi' post IH] using rev_ind.
    + rewrite etag_map_of_snoc, lookup_insert_eq. reflexivity.
    + apply Forall_app in Hpost as [Hpost Hfi']. apply Forall_cons_1 in Hfi' as [Hfi' _].
      change (pre ++ fi :: post ++ [fi']) with (pre ++ (fi :: post) ++ [fi']).
      rewrite app_assoc, etag_map_of_snoc, lookup_insert_ne by assumption.
      apply IH, Hpost.
  - intros n Hall. rewrite etag_map_of_absent by assumption. reflexivity.
Qed.

Lemma etag_map_of_lookup (log_paths : list FileInfo) n e :
  etag_map_of log_paths !! n = Some e ->
  exists fi, In fi log_paths /\ name fi = n /\ etag fi = e.
Proof.
  induction log_paths as [|fi log_paths IH] using rev_ind; [discriminate|].
  rewrite etag_map_of_snoc. destruct (decide (name fi = n)) as [Hn|Hn].
  - rewrite Hn, lookup_insert_eq. intros [= <-].
    exists fi. split; [apply in_or_app; right; left; reflexivity | auto].
  - rewrite lookup_insert_ne by assumption. intros Hl.
    destruct (IH Hl) as (fi' & Hin & Hname & Hetag).
    exists fi'. split; [apply in_or_app; left; assumption | auto].
Qed.

(** X6. The returned pairs: their paths are the names of the log files
    [log_files_from_ls] recognised among the collected descriptors, in its
    order and one pair per log file; an etag that is present is the etag of a
    collected descriptor with that path. *)
Theorem resolve_logs_with_etag_pairs logs w w' pairs :
  resolve_logs_with_etag logs w = (w', Return pairs) ->
  let log_paths := flat_map (fun r => reference_paths (normalize r) w) (references logs) in
  exists log_files,
    log_files_from_ls log_paths false = Return log_files
    /\ map fst pairs = map (fun log_file => name (info log_file)) log_files
    /\ Forall (fun pair =>
                 forall e, snd pair = Some e ->
                   exists fi, In fi log_paths /\ name fi = fst pair /\ etag fi = Some e)
              pairs.
Proof.
  intros Hr log_paths.
  pose proof (returned_without_failure _ _ _ _ Hr) as Hall.
  unfold resolve_logs_with_etag, bind, lift, ret in Hr.
  rewrite expand_directories_all in Hr by (apply normalized_references, Hall).
  simpl in Hr. rewrite flat_map_concat_map, map_map, <- flat_map_concat_map in Hr.
  fold log_paths in Hr.
  destruct (log_files_from_ls log_paths false) as [log_files|]; [|discriminate].
  injection Hr as _ <-. exists log_files. split; [reflexivity|]. split.
  - rewrite map_map. reflexivity.
  - apply Lists.List.Forall_forall. intros pair Hin.
    apply in_map_iff in Hin as (log_file & <- & _). simpl. intros e He.
    destruct (etag_map_of log_paths !! name (info log_file)) as [oe|] eqn:Hl;
      [|discriminate].
    simpl in He. subst oe. apply etag_map_of_lookup, Hl.
Qed.

End ResolverMore.

(** * More of the cache *)

Section CacheReads.
Context {St : Type} `{KVStore St}.

Lemma etag_ne_false cached_etag current_etag :
  etag_ne cached_etag current_etag = false -> cached_etag = etag_value current_etag.
Proof.
  destruct cached_etag, current_etag; simpl; try discriminate; try reflexivity.
  intros Hn. apply negb_false_iff, String.eqb_eq in Hn. congruence.
Qed.

(** X7. The hits: a call returns a frame exactly when the key holds a blob that
    decodes to an object whose etag equals the current etag, whose records
    are truthy, and whose records [from_records] rebuilds into that frame. *)
Theorem get_cached_df_hit_iff log_path current_etag s df :
  get_cached_df log_path current_etag s = (s, Return (Some df))
  <-> exists blob d records,
        kv_get log_path s = Return (Some blob)
        /\ json_loads blob = Return (JObj d)
        /\ dict_get (JObj d) "etag" JNull = Return (etag_value current_etag)
        /\ dict_get (JObj d) "records" (JArr []) = Return records
        /\ truthy records = true
        /\ from_records records = Return df.
Proof.
  split.
  - intros Hg. destruct (kv_get log_path s) as [[blob|]|x] eqn:Hk.
    + rewrite (get_cached_df_entry _ _ _ _ Hk) in Hg.
      destruct (json_loads blob) as [[| | | | |d]|] eqn:Hl; try discriminate.
      destruct (etag_ne _ current_etag) eqn:He; [discriminate|]. cbv zeta in Hg.
      destruct (truthy _) eqn:Ht; [|discriminate].
      destruct (from_records _) as [df'|] eqn:Hf; [|discriminate].
      injection Hg as <-. apply etag_ne_false in He.
      exists blob, d, (default (JArr []) (assoc "records" d)).
      split; [first [reflexivity | assumption]|].
      split; [first [reflexivity | assumption]|]. split.
      { simpl. rewrite <- He. unfold default. destruct (assoc "etag" d); reflexivity. }
      split; [|split; assumption].
      simpl. unfold default. destruct (assoc "records" d); reflexivity.
    + rewrite (get_cached_df_no_entry _ _ _ Hk) in Hg. discriminate.
    + rewrite (get_cached_df_store_error _ _ _ _ Hk) in Hg. discriminate.
  - intros (blob & d & records & Hk & Hl & He & Hrec & Ht & Hf).
    rewrite (get_cached_df_entry _ _ _ _ Hk), Hl. simpl in He, Hrec. unfold default.
    injection He as He. injection Hrec as Hrec.
    replace (match assoc "etag" d with Some x => id x | None => JNull end)
      with (etag_value current_etag)
      by (rewrite <- He; destruct (assoc "etag" d); reflexivity).
    replace (match assoc "records" d with Some x => id x | None => JArr [] end)
      with records
      by (rewrite <- Hrec; destruct (assoc "records" d); reflexivity).
    rewrite (proj2 (etag_ne_value current_etag current_etag) eq_refl). cbv zeta.
    rewrite Ht, Hf. reflexivity.
Qed.

(** X8. An entry without the "etag" key reads as an entry with an absent etag:
    it is a miss for every present current etag, and it is what a call with
    an absent current etag returns. *)
Theorem get_cached_df_missing_etag log_path s blob d :
  kv_get log_path s = Return (Some blob) -> json_loads blob = Return (JObj d) ->
  assoc "etag" d = None ->
  (forall e, get_cached_df log_path (Some e) s = (s, Return None))
  /\ (forall records df,
        dict_get (JObj d) "records" (JArr []) = Return records ->
        truthy records = true -> from_records records = Return df ->
        get_cached_df log_path None s = (s, Return (Some df))).
Proof.
  intros Hk Hl He. split.
  - intros e. rewrite (get_cached_df_entry _ _ _ _ Hk), Hl, He. reflexivity.
  - intros records df Hrec Ht Hf.
    rewrite (get_cached_df_entry _ _ _ _ Hk), Hl, He. cbv zeta.
    simpl in Hrec. injection Hrec as Hrec. unfold default.
    replace (match assoc "records" d with Some x => id x | None => JArr [] end)
      with records
      by (rewrite <- Hrec; destruct (assoc "records" d); reflexivity).
    simpl. rewrite Ht, Hf. reflexivity.
Qed.

(** X9. An entry without the "records" key, or whose records are empty or any
    other falsy value, is a miss whatever the etag. *)
Theorem get_cached_df_falsy_records log_path s blob d records :
  kv_get log_path s = Return (Some blob) -> json_loads blob = Return (JObj d) ->
  dict_get (JObj d) "records" (JArr []) = Return records -> truthy records = false ->
  (assoc "records" d = None -> records = JArr [])
  /\ forall current_etag, get_cached_df log_path current_etag s = (s, Return None).
Proof.
  intros Hk Hl Hrec Ht. simpl in Hrec. injection Hrec as Hrec. split.
  - intros Hnone. rewrite Hnone in Hrec. congruence.
  - intros current_etag. rewrite (get_cached_df_entry _ _ _ _ Hk), Hl. cbv zeta.
    unfold default.
    replace (match assoc "records" d with Some x => id x | None => JArr [] end)
      with records
      by (rewrite <- Hrec; destruct (assoc "records" d); reflexivity).
    rewrite Ht. destruct (etag_ne _ current_etag); reflexivity.
Qed.

End CacheReads.

Section CacheKeys.
Context {St1 St2 : Type} {kv1 : KVStore St1} {kv2 : KVStore St2}.

(** X10. A read depends on the store only through what it holds under the key:
    two stores, of any two kinds, that answer [get] alike under [log_path]
    give the same result. *)
Theorem get_cached_df_reads_own_key log_path current_etag (s1 : St1) (s2 : St2) :
  kv_get log_path s1 = kv_get log_path s2 ->
  snd (get_cached_df log_path current_etag s1) = snd (get_cached_df log_path current_etag s2).
Proof.
  intros Hk. destruct (kv_get log_path s2) as [[blob|]|x] eqn:Hk2.
  - rewrite (get_cached_df_entry _ _ _ _ Hk), (get_cached_df_entry _ _ _ _ Hk2). reflexivity.
  - rewrite (get_cached_df_no_entry _ _ _ Hk), (get_cached_df_no_entry _ _ _ Hk2). reflexivity.
  - rewrite (get_cached_df_store_error _ _ _ _ Hk), (get_cached_df_store_error _ _ _ _ Hk2).
    reflexivity.
Qed.

End CacheKeys.

Section CacheWrites.
Context {St : Type} `{KVStore St}.

(** X11. A write under one path leaves the reads under every other path as they
    were, in a store whose [put] touches one key. *)
Theorem put_cached_df_other_key `{!FramedKVStore St} log_path other etag current_etag df s :
  other <> log_path ->
  snd (get_cached_df other current_etag (fst (put_cached_df log_path etag df s)))
  = snd (get_cached_df other current_etag s).
Proof.
  intros Hne. destruct (put_cached_df_cases log_path etag df s) as (s' & -> & [-> | Hs]);
    [reflexivity|]. simpl.
  destruct Hs as (text & records & _ & _ & Hp).
  pose proof (kv_get_put_other _ other _ _ _ Hp Hne) as Hk.
  destruct (kv_get other s) as [[blob|]|x] eqn:Hk0.
  - rewrite (get_cached_df_entry _ _ _ _ Hk), (get_cached_df_entry _ _ _ _ Hk0). reflexivity.
  - rewrite (get_cached_df_no_entry _ _ _ Hk), (get_cached_df_no_entry _ _ _ Hk0). reflexivity.
  - rewrite (get_cached_df_store_error _ _ _ _ Hk), (get_cached_df_store_error _ _ _ _ Hk0).
    reflexivity.
Qed.

(** X12. The persisted layout: the entry a write stores decodes to an object
    with the etag under "etag" (null when absent) and, under "records", one
    object per row of the frame, in row order, its keys the column names in
    column order. *)
Theorem put_cached_df_layout `{!LawfulKVStore St} log_path etag df s s' :
  valid_frame df = true -> stored log_path etag df s s' ->
  exists blob,
    kv_get log_path s' = Return (Some blob)
    /\ json_loads blob
       = Return (JObj [("etag"%string, etag_value etag);
                       ("records"%string,
                        JArr (map (fun row => JObj (combine (columns df) (map cell_value row)))
                                  (data df)))])
    /\ Forall (fun row => forallb is_value row = true) (data df).
Proof.
  intros Hv Hs.
  destruct (stored_entry _ _ _ _ _ Hs) as (text & records & Ht & Hl & Hw & Hg).
  destruct (to_json_records_Return _ _ Ht) as (os & Hu & Hr & ->).
  rewrite json_loads_print in Hl by (eapply rows_json_well_formed; eassumption).
  injection Hl as <-.
  destruct (rows_json_Return _ _ _ Hr) as [Hos Hall].
  eexists. split; [exact Hg|]. split.
  - rewrite json_loads_dumps; [rewrite Hos; reflexivity|].
    simpl. simpl in Hw. rewrite Hw. destruct etag; reflexivity.
  - clear -Hall. induction Hall as [|row rows Hrow _ IH]; constructor; [|assumption].
    rewrite Hrow. clear. induction (map cell_value row); simpl; auto.
Qed.

End CacheWrites.

#[global] Instance dict_store_framed : FramedKVStore (gmap string string).
Proof.
  split. intros k k' v s s' [= <-] Hne. simpl. rewrite lookup_insert_ne by congruence.
  reflexivity.
Qed.

#[global] Instance guarded_kvstore_framed : FramedKVStore guarded_store.
Proof.
  split. intros k k' v s s'. simpl. destruct (writable s); [|discriminate].
  intros [= <-] Hne. simpl. rewrite lookup_insert_ne by congruence. reflexivity.
Qed.

(** * Concrete runs of the further properties *)

Section MoreRuns.
Local Open Scope string_scope.

(** The write of [scores] to the empty store took effect: by evaluation. *)
Ltac scores_stored :=
  exists (string_of_list_ascii (JsonText.print false true scores_records)), scores_records;
  split; [vm_compute; reflexivity|]; split; vm_compute; reflexivity.

Lemma sample_refs_resolve :
  Forall (fun r => reference_failure (normalize r) sample_fs = None) sample_refs.
Proof. repeat constructor. Qed.

Lemma resolve_logs_with_etag_expansion_witness :
  Forall (fun r => reference_failure (normalize r) sample_fs = None) sample_refs
  /\ resolve_logs_with_etag (Many sample_refs) sample_fs
     = (sample_fs,
        Return [("logs/a.eval", Some "E1"); ("logs/sub/b.eval", Some "E3");
                ("local.json", None)]).
Proof.
  split; [repeat constructor|].
  rewrite (resolve_logs_with_etag_expansion (Many sample_refs) sample_fs);
    [vm_compute; reflexivity | repeat constructor].
Defined.

Lemma resolve_logs_with_etag_returns_witness :
  resolve_logs_with_etag (Many sample_refs) sample_fs
  = (sample_fs,
     Return [("logs/a.eval", Some "E1"); ("logs/sub/b.eval", Some "E3");
             ("local.json", None)])
  /\ sample_fs = sample_fs
  /\ Forall (fun r => reference_failure (normalize r) sample_fs = None)
       (references (Many sample_refs)).
Proof.
  assert (Hr : resolve_logs_with_etag (Many sample_refs) sample_fs
               = (sample_fs,
                  Return [("logs/a.eval", Some "E1"); ("logs/sub/b.eval", Some "E3");
                          ("local.json", None)]))
    by (vm_compute; reflexivity).
  split; [exact Hr|].
  exact (resolve_logs_with_etag_returns (Many sample_refs) sample_fs _ _ Hr).
Defined.

Lemma expand_directories_no_directory_witness :
  expand_directories ["logs"; "local.json"] [] sample_fs = (sample_fs, Return sample_paths)
  /\ Forall (fun fi => String.eqb (type fi) "directory" = false) sample_paths.
Proof.
  assert (He : expand_directories ["logs"; "local.json"] [] sample_fs
               = (sample_fs, Return sample_paths))
    by (vm_compute; reflexivity).
  split; [exact He|].
  exact (expand_directories_no_directory _ sample_fs _ _ He).
Defined.

Lemma resolve_logs_with_etag_pairs_witness :
  resolve_logs_with_etag (Many sample_refs) sample_fs
  = (sample_fs,
     Return [("logs/a.eval", Some "E1"); ("logs/sub/b.eval", Some "E3");
             ("local.json", None)])
  /\ exists log_files,
       log_files_from_ls
         (flat_map (fun r => reference_paths (normalize r) sample_fs)
            (references (Many sample_refs))) false
       = Return log_files
       /\ map fst [("logs/a.eval", Some "E1"); ("logs/sub/b.eval", Some "E3");
                   ("local.json", None)]
          = map (fun log_file => name (info log_file)) log_files
       /\ Forall (fun pair : string * option string =>
                    forall e, snd pair = Some e ->
                      exists fi,
                        In fi (flat_map (fun r => reference_paths (normalize r) sample_fs)
                                 (references (Many sample_refs)))
                        /\ name fi = fst pair /\ etag fi = Some e)
            [("logs/a.eval", Some "E1"); ("logs/sub/b.eval", Some "E3");
             ("local.json", None)].
Proof.
  assert (Hr : resolve_logs_with_etag (Many sample_refs) sample_fs
               = (sample_fs,
                  Return [("logs/a.eval", Some "E1"); ("logs/sub/b.eval", Some "E3");
                          ("local.json", None)]))
    by (vm_compute; reflexivity).
  split; [exact Hr|].
  exact (resolve_logs_with_etag_pairs (Many sample_refs) sample_fs _ _ Hr).
Defined.

Lemma get_cached_df_missing_etag_witness :
  kv_get "a.log" ({[ "a.log" := json_dumps (JObj no_etag_entry) ]} : gmap string string)
  = Return (Some (json_dumps (JObj no_etag_entry)))
  /\ json_loads (json_dumps (JObj no_etag_entry)) = Return (JObj no_etag_entry)
  /\ assoc "etag" no_etag_entry = None
  /\ get_cached_df "a.log" (Some "E1")
       ({[ "a.log" := json_dumps (JObj no_etag_entry) ]} : gmap string string)
     = ({[ "a.log" := json_dumps (JObj no_etag_entry) ]}, Return None)
  /\ get_cached_df "a.log" None
       ({[ "a.log" := json_dumps (JObj no_etag_entry) ]} : gmap string string)
     = ({[ "a.log" := json_dumps (JObj no_etag_entry) ]}, Return (Some one_id)).
Proof.
  assert (Hk : kv_get "a.log"
                 ({[ "a.log" := json_dumps (JObj no_etag_entry) ]} : gmap string string)
               = Return (Some (json_dumps (JObj no_etag_entry))))
    by (vm_compute; reflexivity).
  assert (Hl : json_loads (json_dumps (JObj no_etag_entry)) = Return (JObj no_etag_entry))
    by (vm_compute; reflexivity).
  destruct (get_cached_df_missing_etag "a.log" _ _ _ Hk Hl eq_refl) as [Hmiss Hhit].
  split; [exact Hk|]. split; [exact Hl|]. split; [reflexivity|].
  split; [apply Hmiss|].
  apply (Hhit (JArr [JObj [("id", JStr "s1")]]) one_id); reflexivity.
Defined.

Lemma get_cached_df_falsy_records_witness :
  kv_get "a.log" ({[ "a.log" := json_dumps (JObj no_records_entry) ]} : gmap string string)
  = Return (Some (json_dumps (JObj no_records_entry)))
  /\ json_loads (json_dumps (JObj no_records_entry)) = Return (JObj no_records_entry)
  /\ dict_get (JObj no_records_entry) "records" (JArr []) = Return (JArr [])
  /\ truthy (JArr []) = false
  /\ get_cached_df "a.log" (Some "E1")
       ({[ "a.log" := json_dumps (JObj no_records_entry) ]} : gmap string string)
     = ({[ "a.log" := json_dumps (JObj no_records_entry) ]}, Return None).
Proof.
  assert (Hk : kv_get "a.log"
                 ({[ "a.log" := json_dumps (JObj no_records_entry) ]} : gmap string string)
               = Return (Some (json_dumps (JObj no_records_entry))))
    by (vm_compute; reflexivity).
  assert (Hl : json_loads (json_dumps (JObj no_records_entry))
               = Return (JObj no_records_entry))
    by (vm_compute; reflexivity).
  destruct (get_cached_df_falsy_records "a.log" _ _ _ (JArr []) Hk Hl eq_refl eq_refl)
    as [_ Hmiss].
  split; [exact Hk|]. split; [exact Hl|]. split; [reflexivity|]. split; [reflexivity|].
  apply Hmiss.
Defined.

(** An in-memory store and a read-only store that hold the same entry. *)
Lemma get_cached_df_reads_own_key_witness :
  kv_get "a.log" (holding "a.log" (Some "E1"))
  = kv_get "a.log" (read_only (<[ "b.log" := "x" ]> (holding "a.log" (Some "E1"))))
  /\ snd (get_cached_df "a.log" (Some "E1") (holding "a.log" (Some "E1")))
     = snd (get_cached_df "a.log" (Some "E1")
              (read_only (<[ "b.log" := "x" ]> (holding "a.log" (Some "E1"))))).
Proof.
  assert (Hk : kv_get "a.log" (holding "a.log" (Some "E1"))
               = kv_get "a.log"
                   (read_only (<[ "b.log" := "x" ]> (holding "a.log" (Some "E1")))))
    by (vm_compute; reflexivity).
  split; [exact Hk|].
  exact (get_cached_df_reads_own_key "a.log" (Some "E1") _ _ Hk).
Defined.

Lemma put_cached_df_other_key_witness :
  "a.log" <> "b.log"
  /\ snd (get_cached_df "a.log" (Some "E1")
            (fst (put_cached_df "b.log" (Some "E9") scores (holding "a.log" (Some "E1")))))
     = snd (get_cached_df "a.log" (Some "E1") (holding "a.log" (Some "E1"))).
Proof.
  split; [discriminate|].
  apply (put_cached_df_other_key "b.log" "a.log" (Some "E9") (Some "E1") scores
           (holding "a.log" (Some "E1"))).
  discriminate.
Defined.

Lemma put_cached_df_layout_witness :
  valid_frame scores = true
  /\ stored "a.log" (Some "E1") scores empty_store (after_put "a.log" (Some "E1") scores)
  /\ exists blob,
       kv_get "a.log" (after_put "a.log" (Some "E1") scores) = Return (Some blob)
       /\ json_loads blob
          = Return (JObj [("etag", JStr "E1");
                          ("records",
                           JArr (map (fun row =>
                                        JObj (combine (columns scores) (map cell_value row)))
                                     (data scores)))])
       /\ Forall (fun row => forallb is_value row = true) (data scores).
Proof.
  assert (Hs : stored "a.log" (Some "E1") scores empty_store
                 (after_put "a.log" (Some "E1") scores))
    by scores_stored.
  split; [reflexivity|]. split; [exact Hs|].
  exact (put_cached_df_layout "a.log" (Some "E1") scores empty_store _ eq_refl Hs).
Defined.

End MoreRuns.
